(** * Fleet tyre-maintenance savings calculator

    A shallow embedding of [vanservicing.py]: the catalog of van classes
    ([DEFAULT_PARAMS]), the two cost helpers
    ([calculate_extra_fuel_cost_10k], [calculate_extra_tyre_cost_10k]),
    the per-class step [process_van_type] and the top-level accumulation of
    [total_fleet_savings].

    Numbers.  The Python program computes with [int] and binary64 [float].
    The program is embedded in both arithmetics.

    - Module [B64] is the program in its own arithmetic: a Python float is a
      primitive binary64 [float], each [+], [-], [*] and [/] rounds as
      IEEE 754 does, results can be infinite or NaN, and the ints of the form
      are [Z], converted to float where Python converts them.  What the
      helpers return, its sign and the errors they raise are stated on
      [B64].
    - The definitions at top level compute in exact rational arithmetic
      ([Q], compared with [==]).  They are used for the structure of the
      computation: which guard fires, which branch is taken, what is
      written to the summary, and how the class savings and the total are
      put together.

    Errors.  Python raises; the model returns a [result].  Subscripting a
    dict with an absent key raises [KeyError], true division by zero raises
    [ZeroDivisionError], a result or an int too large for a float raises
    [OverflowError].

    Rounding.  The sign of what the program computes depends on how the
    binary64 operations round.  It is proved from the Standard Library's
    specification of binary64 ([SpecFloat]): the rounded quotient, product
    and sum of non-negative values keep the order of the exact ones.

    State.  [savings_per_10k_summary] is a module-level dict mutated by
    [process_van_type]; it is threaded explicitly as a [gmap]. *)

From Stdlib Require Import QArith Qabs Qpower Lqa ZArith Floats Lia.
From stdpp Require Import gmap strings.

Set Warnings "-inexact-float".

Local Open Scope Q_scope.

(** ** Python values and errors *)

Module Py.

Inductive exn : Type :=
| KeyError (key : string)
| ZeroDivisionError
| OverflowError.

Inductive result (A : Type) : Type :=
| Ok (a : A)
| Raise (e : exn).

Arguments Ok {A} a.
Arguments Raise {A} e.

Definition bind {A B : Type} (m : result A) (k : A -> result B) : result B :=
  match m with
  | Ok a => k a
  | Raise e => Raise e
  end.

(** [a / b] on numbers (true division). *)
Definition truediv (a b : Q) : result Q :=
  if Qeq_bool b 0 then Raise ZeroDivisionError else Ok (a / b).

(** [d[key]] on a dict. *)
Definition getitem {V : Type} (d : gmap string V) (key : string) : result V :=
  match d !! key with
  | Some v => Ok v
  | None => Raise (KeyError key)
  end.

End Py.

Import Py.

#[global] Instance result_ret : MRet result := @Ok.
#[global] Instance result_bind : MBind result := fun A B k m => Py.bind m k.

(** ** Constants and the catalog (lines 4-26) *)

Definition LITRES_PER_GALLON : Q := 4.54609.

Record Params : Type := mkParams {
  mpg_std : Q;
  mpg_under : Q;
  tyre_cost_std : Q;
  tyre_cost_under : Q
}.

Definition DEFAULT_PARAMS : gmap string Params :=
  <["Small Van"%string := mkParams 54.3 51.0 240.0 283.2]>
  (<["Medium Van"%string := mkParams 44.8 42.1 320.0 377.6]>
  (<["Large Van"%string := mkParams 40.9 38.4 380.0 448.4]>
  (<["Long Wheelbase Van"%string := mkParams 32.5 30.6 380.0 448.4]> ∅))).

Definition DEFAULT_TYRE_LIFESPAN_MILES : Q := 20000.

(** ** Helper functions (lines 29-45) *)

Definition calculate_extra_fuel_cost_10k (mpg_std mpg_under price_per_litre : Q)
  : result Q :=
  if Qle_bool mpg_std 0 || Qle_bool mpg_under 0 || Qle_bool price_per_litre 0
  then Ok 0
  else
    gallons_std ← truediv 10000 mpg_std;
    gallons_under ← truediv 10000 mpg_under;
    let cost_std := gallons_std * LITRES_PER_GALLON * price_per_litre in
    let cost_under := gallons_under * LITRES_PER_GALLON * price_per_litre in
    Ok (cost_under - cost_std).

Definition calculate_extra_tyre_cost_10k (tyre_cost_std tyre_cost_under lifespan_miles : Q)
  : result Q :=
  if Qle_bool lifespan_miles 0
  then Ok 0
  else
    let cost_diff_lifespan := tyre_cost_under - tyre_cost_std in
    cycles ← truediv lifespan_miles 10000;
    truediv cost_diff_lifespan cycles.

(** ** The form (lines 94-95)

    [st.number_input] is the only input of [process_van_type] besides its
    arguments: one count field and one mileage field per van class. *)

Record FleetInput : Type := mkFleetInput {
  count : Z;
  miles : Z
}.

Definition Form : Type := string -> FleetInput.

(** ** Processing one van class (lines 85-110)

    The [column] argument and the [st.write]/[st.caption] calls only lay
    out text and are left out.  The result pairs the returned annual saving
    with the updated [savings_per_10k_summary]. *)

Definition process_van_type (van_type_name : string) (diesel_price : Q) (form : Form)
    (savings_per_10k_summary : gmap string Q) : result (Q * gmap string Q) :=
  params ← getitem DEFAULT_PARAMS van_type_name;
  let tyre_lifespan := DEFAULT_TYRE_LIFESPAN_MILES in
  let count := count (form van_type_name) in
  let miles := miles (form van_type_name) in
  if (0 <? count)%Z && (0 <? miles)%Z
  then
    extra_fuel_cost ←
      calculate_extra_fuel_cost_10k (mpg_std params) (mpg_under params) diesel_price;
    extra_tyre_cost ←
      calculate_extra_tyre_cost_10k (tyre_cost_std params) (tyre_cost_under params)
        tyre_lifespan;
    let total_extra_cost_10k := extra_fuel_cost + extra_tyre_cost in
    let savings_per_10k_summary :=
      <[van_type_name := total_extra_cost_10k]> savings_per_10k_summary in
    miles_10k ← truediv (inject_Z miles) 10000;
    let annual_savings := miles_10k * total_extra_cost_10k * inject_Z count in
    Ok (annual_savings, savings_per_10k_summary)
  else
    Ok (0, <[van_type_name := 0]> savings_per_10k_summary).

(** ** The accumulation (lines 78-82 and 113-116)

    The script adds the result of one [process_van_type] call per class to
    [total_fleet_savings], in the order of [VAN_TYPES].  [process_all] is that
    sequence of [+=] statements for an arbitrary list of class names. *)

Definition VAN_TYPES : list string :=
  ["Small Van"; "Large Van"; "Medium Van"; "Long Wheelbase Van"]%string.

Fixpoint process_all (names : list string) (diesel_price : Q) (form : Form)
    (total : Q) (summary : gmap string Q) : result (Q * gmap string Q) :=
  match names with
  | [] => Ok (total, summary)
  | name :: rest =>
      '(saving, summary') ← process_van_type name diesel_price form summary;
      process_all rest diesel_price form (total + saving) summary'
  end.

Definition total_fleet_savings (diesel_price : Q) (form : Form)
  : result (Q * gmap string Q) :=
  process_all VAN_TYPES diesel_price form 0 ∅.

(** ** Quantities named by the specification

    The unit saving of a class is the value of the local
    [total_extra_cost_10k] (lines 98-100): the sum of the two helpers at the
    class parameters and the fixed tyre lifespan. *)

Definition total_extra_cost_10k (params : Params) (diesel_price : Q) : result Q :=
  extra_fuel_cost ←
    calculate_extra_fuel_cost_10k (mpg_std params) (mpg_under params) diesel_price;
  extra_tyre_cost ←
    calculate_extra_tyre_cost_10k (tyre_cost_std params) (tyre_cost_under params)
      DEFAULT_TYRE_LIFESPAN_MILES;
  Ok (extra_fuel_cost + extra_tyre_cost).

(** The annual saving of a class is what [process_van_type] returns for it. *)
Definition returned {A S : Type} (r : result (A * S)) : result A :=
  '(a, _) ← r; Ok a.

Definition class_annual_saving (van_type_name : string) (diesel_price : Q)
    (form : Form) : Q :=
  match returned (process_van_type van_type_name diesel_price form ∅) with
  | Ok a => a
  | Raise _ => 0
  end.


(** Amounts are stated and displayed ([:,.2f]) to the penny: [x] is about
    [amount] when it is within half a penny of it. *)
Definition to_the_penny (x amount : Q) : Prop := Qabs (x - amount) <= 0.005.

(** The form of the worked scenario: one Small Van driving 10000 miles, the
    other count fields at their default 0 and the mileage fields at their
    defaults. *)
Definition small_van_only : Form := fun name =>
  if decide (name = "Small Van"%string) then mkFleetInput 1 10000
  else if decide (name = "Medium Van"%string) then mkFleetInput 0 12000
  else if decide (name = "Large Van"%string) then mkFleetInput 0 15000
  else mkFleetInput 0 20000.

(** A form with the same entries for every class. *)
Definition uniform_form (count miles : Z) : Form := fun _ => mkFleetInput count miles.

(** A class is active on a form when both of its fields are positive
    (the test of line 97). *)
Definition active (form : Form) (name : string) : bool :=
  (0 <? count (form name))%Z && (0 <? miles (form name))%Z.

(** What [process_van_type] stores for a class in the summary: the unit saving
    of line 101 when the class is active, the 0 of line 109 otherwise. *)
Definition recorded_saving (diesel_price : Q) (form : Form) (name : string) : Q :=
  match DEFAULT_PARAMS !! name with
  | Some params =>
      if active form name
      then match total_extra_cost_10k params diesel_price with
           | Ok unit => unit
           | Raise _ => 0
           end
      else 0
  | None => 0
  end.

(** * The program in binary64

    The same source lines again, in the arithmetic Python uses.  A decimal
    literal denotes the nearest binary64 value, as it does in Python. *)

Module B64.

Local Open Scope float_scope.

(** [a / b] on floats: a zero divisor of either sign raises. *)
Definition truediv (a b : float) : result float :=
  if b =? 0 then Raise ZeroDivisionError else Ok (a / b).

(** A correctly rounded value as a Python float: an overflow raises. *)
Definition of_spec_float (x : spec_float) : result float :=
  match x with
  | S754_infinity _ => Raise OverflowError
  | _ => Ok (SF2Prim x)
  end.

(** [float(n)] on an int, as done by [x * n] for a float [x]. *)
Definition float_of_int (n : Z) : result float :=
  of_spec_float (binary_normalize prec emax n 0 false).

(** [a / b] on ints: the quotient rounded once to binary64. *)
Definition int_truediv (a b : Z) : result float :=
  match a, b with
  | _, Z0 => Raise ZeroDivisionError
  | Z0, _ => Ok (if (b <? 0)%Z then -0 else 0)
  | _, _ =>
      of_spec_float
        (SFdiv prec emax
           (S754_finite (a <? 0)%Z (Z.to_pos (Z.abs a)) 0)
           (S754_finite (b <? 0)%Z (Z.to_pos (Z.abs b)) 0))
  end.

(** The rational a finite float stands for (0 for infinities and NaN). *)
Definition to_Q (x : float) : Q :=
  match Prim2SF x with
  | S754_finite s m e => ((if s then -1 else 1) * inject_Z (Zpos m) * Qpower 2 e)%Q
  | _ => 0%Q
  end.

(** Lines 4-26.  [DEFAULT_TYRE_LIFESPAN_MILES] is the int 20000, which is a
    binary64 value; [20000 / 10000] is 2.0 on ints and on floats alike. *)

Definition LITRES_PER_GALLON : float := 4.54609.

Record Params : Type := mkParams {
  mpg_std : float;
  mpg_under : float;
  tyre_cost_std : float;
  tyre_cost_under : float
}.

Definition DEFAULT_PARAMS : gmap string Params :=
  <["Small Van"%string := mkParams 54.3 51.0 240.0 283.2]>
  (<["Medium Van"%string := mkParams 44.8 42.1 320.0 377.6]>
  (<["Large Van"%string := mkParams 40.9 38.4 380.0 448.4]>
  (<["Long Wheelbase Van"%string := mkParams 32.5 30.6 380.0 448.4]> ∅))).

Definition DEFAULT_TYRE_LIFESPAN_MILES : float := 20000.

(** Lines 29-37. *)
Definition calculate_extra_fuel_cost_10k (mpg_std mpg_under price_per_litre : float)
  : result float :=
  if (mpg_std <=? 0) || (mpg_under <=? 0) || (price_per_litre <=? 0)
  then Ok 0
  else
    gallons_std ← truediv 10000 mpg_std;
    gallons_under ← truediv 10000 mpg_under;
    let cost_std := gallons_std * LITRES_PER_GALLON * price_per_litre in
    let cost_under := gallons_under * LITRES_PER_GALLON * price_per_litre in
    Ok (cost_under - cost_std).

(** Lines 39-45. *)
Definition calculate_extra_tyre_cost_10k
    (tyre_cost_std tyre_cost_under lifespan_miles : float) : result float :=
  if lifespan_miles <=? 0
  then Ok 0
  else
    let cost_diff_lifespan := tyre_cost_under - tyre_cost_std in
    cycles ← truediv lifespan_miles 10000;
    truediv cost_diff_lifespan cycles.

(** Lines 85-110.  [miles / 10000] divides two ints; [... * count]
    converts the int [count].  The int [0] of lines 109-110 is written as
    the float +0.0, the value it has in every sum and comparison it enters. *)
Definition process_van_type (van_type_name : string) (diesel_price : float)
    (form : Form) (savings_per_10k_summary : gmap string float)
  : result (float * gmap string float) :=
  params ← getitem DEFAULT_PARAMS van_type_name;
  let tyre_lifespan := DEFAULT_TYRE_LIFESPAN_MILES in
  let count := count (form van_type_name) in
  let miles := miles (form van_type_name) in
  if (0 <? count)%Z && (0 <? miles)%Z
  then
    extra_fuel_cost ←
      calculate_extra_fuel_cost_10k (mpg_std params) (mpg_under params) diesel_price;
    extra_tyre_cost ←
      calculate_extra_tyre_cost_10k (tyre_cost_std params) (tyre_cost_under params)
        tyre_lifespan;
    let total_extra_cost_10k := extra_fuel_cost + extra_tyre_cost in
    let savings_per_10k_summary :=
      <[van_type_name := total_extra_cost_10k]> savings_per_10k_summary in
    miles_10k ← int_truediv miles 10000;
    count_as_float ← float_of_int count;
    let annual_savings := miles_10k * total_extra_cost_10k * count_as_float in
    Ok (annual_savings, savings_per_10k_summary)
  else
    Ok (0, <[van_type_name := 0]> savings_per_10k_summary).

(** Lines 78-82 and 113-116.  The total starts from the int [0] of line 78,
    written as the float +0.0. *)
Fixpoint process_all (names : list string) (diesel_price : float) (form : Form)
    (total : float) (summary : gmap string float)
  : result (float * gmap string float) :=
  match names with
  | [] => Ok (total, summary)
  | name :: rest =>
      '(saving, summary') ← process_van_type name diesel_price form summary;
      process_all rest diesel_price form (total + saving) summary'
  end.

Definition total_fleet_savings (diesel_price : float) (form : Form)
  : result (float * gmap string float) :=
  process_all VAN_TYPES diesel_price form 0 ∅.

(** The factored expression of the fuel formula, evaluated as Python would
    evaluate it: (10000 / mpg_under - 10000 / mpg_std) * litres per gallon *
    price. *)
Definition factored_fuel_formula (mpg_std mpg_under price_per_litre : float) : float :=
  (10000 / mpg_under - 10000 / mpg_std) * LITRES_PER_GALLON * price_per_litre.

(** The other closed form of the tyre formula:
    (tyre_cost_under - tyre_cost_std) * 10000 / lifespan. *)
Definition scaled_tyre_formula (tyre_cost_std tyre_cost_under lifespan_miles : float)
  : float :=
  (tyre_cost_under - tyre_cost_std) * 10000 / lifespan_miles.

End B64.

(** * Binary64 values as rationals

    The definitions below read the Standard Library's specification of
    binary64 ([SpecFloat], to which the axioms of [FloatAxioms] tie the
    primitive operations) in exact rationals.  They serve the proofs that
    the rounded quotients, products and sums of the program keep the order
    of the exact ones. *)

(** 2 to the power [e], for any integer [e]. *)
Definition p2 (e : Z) : Q := Qpower 2 e.

(** The rational [X] lies at the place [l] of the interval [m, m + 1):
    on [m], below the middle, on the middle, or above it. *)
Definition inb (m : Z) (l : SpecFloat.location) (X : Q) : Prop :=
  match l with
  | loc_Exact => X == inject_Z m
  | loc_Inexact Lt => inject_Z m < X /\ X < inject_Z m + (1 # 2)
  | loc_Inexact Eq => X == inject_Z m + (1 # 2)
  | loc_Inexact Gt => inject_Z m + (1 # 2) < X /\ X < inject_Z m + 1
  end.

(** The same, for the record that the shifts of [SpecFloat] work on. *)
Definition inb_rec (mrs : shr_record) (X : Q) : Prop :=
  inb (shr_m mrs) (loc_of_shr_record mrs) X.

(** [z] is [X] rounded to the nearest integer, ties to even. *)
Definition is_rne (X : Q) (z : Z) : Prop :=
  inject_Z z - (1 # 2) <= X /\ X <= inject_Z z + (1 # 2) /\
  (X == inject_Z z - (1 # 2) \/ X == inject_Z z + (1 # 2) -> Z.even z = true).

(** The exponent binary64 gives a value of [k] binary digits. *)
Definition fexp64 (k : Z) : Z := Z.max (k - 53) (-1074).

(** What [binary_round_aux] returns for the rounded mantissa [z] at the
    exponent [c]: +0, a valid finite float of the same value, or +infinity
    when the value is 2^1024 or more. *)
Definition rounded (out : spec_float) (z c : Z) : Prop :=
  (z = 0%Z /\ out = S754_zero false) \/
  (exists m e', out = S754_finite false m e' /\
     inject_Z (Zpos m) * p2 e' == inject_Z z * p2 c /\ (e' <= 971)%Z /\
     bounded prec emax m e' = true) \/
  (out = S754_infinity false /\ p2 1024 <= inject_Z z * p2 c).

(** The value of the finite float of mantissa [m] and exponent [e]. *)
Definition valF (m : positive) (e : Z) : Q := inject_Z (Zpos m) * p2 e.

(** A float that is neither negative nor a NaN (+0, a positive finite value
    or +infinity). *)
Definition nn (x : spec_float) : bool :=
  match x with
  | S754_zero false | S754_finite false _ _ | S754_infinity false => true
  | _ => false
  end.

(** [rounds_to x out]: [out] is what [binary_round_aux] makes of the exact,
    non-negative value [x]. *)
Definition rounds_to (x : Q) (out : spec_float) : Prop :=
  exists (q e : Z) (l : SpecFloat.location) (X : Q),
    (0 <= q)%Z /\ inb q l X /\ (e <= fexp64 (Zdigits2 q + e))%Z /\
    X * p2 e == x /\ out = binary_round_aux prec emax false q e l.

(** A float that is positive: finite or +infinity. *)
Definition pos_sf (x : spec_float) : bool :=
  match x with
  | S754_finite false _ _ | S754_infinity false => true
  | _ => false
  end.

(** * Properties *)

(** ** The guards and the divisions *)

Lemma Qle_bool_false (x y : Q) : Qle_bool x y = false <-> y < x.
Proof.
  split; intros H.
  - apply Qnot_le_lt. intros Hle. apply Qle_bool_iff in Hle. congruence.
  - destruct (Qle_bool x y) eqn:E; [| reflexivity].
    apply Qle_bool_iff in E. exfalso. apply (Qlt_not_le _ _ H E).
Qed.

Lemma Qle_bool_true (x y : Q) : x <= y -> Qle_bool x y = true.
Proof. apply Qle_bool_iff. Qed.

Lemma truediv_nonzero (a b : Q) : ~ b == 0 -> truediv a b = Ok (a / b).
Proof.
  intros Hb. unfold truediv.
  destruct (Qeq_bool b 0) eqn:E; [| reflexivity].
  apply Qeq_bool_iff in E. contradiction.
Qed.

Lemma truediv_pos (a b : Q) : 0 < b -> truediv a b = Ok (a / b).
Proof. intros Hb. apply truediv_nonzero. intros E. rewrite E in Hb. discriminate. Qed.

Lemma truediv_zero (a b : Q) : b == 0 -> truediv a b = Raise ZeroDivisionError.
Proof. intros Hb. unfold truediv. apply Qeq_bool_iff in Hb. now rewrite Hb. Qed.

Lemma truediv_10000 (a : Q) : truediv a 10000 = Ok (a / 10000).
Proof. reflexivity. Qed.

(** Past its guard, the fuel helper returns the difference of the two costs. *)
Lemma fuel_cost_past_guard (ms mu p : Q) :
  0 < ms -> 0 < mu -> 0 < p ->
  calculate_extra_fuel_cost_10k ms mu p =
    Ok (10000 / mu * LITRES_PER_GALLON * p - 10000 / ms * LITRES_PER_GALLON * p).
Proof.
  intros Hs Hu Hp. unfold calculate_extra_fuel_cost_10k.
  rewrite (proj2 (Qle_bool_false ms 0) Hs), (proj2 (Qle_bool_false mu 0) Hu),
    (proj2 (Qle_bool_false p 0) Hp).
  cbn [orb]. rewrite (truediv_pos _ _ Hs), (truediv_pos _ _ Hu). reflexivity.
Qed.

(** Past its guard, the tyre helper returns the differential per wear cycle. *)
Lemma tyre_cost_past_guard (s u l : Q) :
  0 < l ->
  calculate_extra_tyre_cost_10k s u l = Ok ((u - s) / (l / 10000)).
Proof.
  intros Hl. unfold calculate_extra_tyre_cost_10k.
  rewrite (proj2 (Qle_bool_false l 0) Hl), truediv_10000. cbn.
  apply truediv_pos. apply Qlt_shift_div_l; [reflexivity | now rewrite Qmult_0_l].
Qed.

(** Neither helper raises, whatever its arguments. *)
Lemma fuel_cost_total (ms mu p : Q) :
  exists v, calculate_extra_fuel_cost_10k ms mu p = Ok v.
Proof.
  destruct (Qlt_le_dec 0 ms) as [Hs | Hs];
    [destruct (Qlt_le_dec 0 mu) as [Hu | Hu];
      [destruct (Qlt_le_dec 0 p) as [Hp | Hp] |] |].
  - eexists. now apply fuel_cost_past_guard.
  - exists 0. unfold calculate_extra_fuel_cost_10k.
    rewrite (Qle_bool_true p 0 Hp). now rewrite !orb_true_r.
  - exists 0. unfold calculate_extra_fuel_cost_10k.
    rewrite (Qle_bool_true mu 0 Hu). now rewrite orb_true_r.
  - exists 0. unfold calculate_extra_fuel_cost_10k.
    now rewrite (Qle_bool_true ms 0 Hs).
Qed.

Lemma tyre_cost_total (s u l : Q) :
  exists v, calculate_extra_tyre_cost_10k s u l = Ok v.
Proof.
  destruct (Qlt_le_dec 0 l) as [Hl | Hl].
  - eexists. now apply tyre_cost_past_guard.
  - exists 0. unfold calculate_extra_tyre_cost_10k.
    now rewrite (Qle_bool_true l 0 Hl).
Qed.

(** ** The guards of the helpers *)

(** C3: the fuel helper returns exactly 0 as soon as one of its three
    arguments is not positive, and the tyre helper returns exactly 0 when the
    lifespan is not positive; both return, neither raises. *)
Theorem helpers_degrade_to_zero :
  (forall ms mu p : Q,
      ms <= 0 \/ mu <= 0 \/ p <= 0 ->
      calculate_extra_fuel_cost_10k ms mu p = Ok 0) /\
  (forall s u l : Q,
      l <= 0 ->
      calculate_extra_tyre_cost_10k s u l = Ok 0).
Proof.
  split.
  - intros ms mu p H. unfold calculate_extra_fuel_cost_10k.
    destruct H as [H | [H | H]]; rewrite (Qle_bool_true _ _ H).
    + reflexivity.
    + now rewrite orb_true_r.
    + now rewrite orb_true_r.
  - intros s u l H. unfold calculate_extra_tyre_cost_10k.
    now rewrite (Qle_bool_true _ _ H).
Qed.

Lemma helpers_degrade_to_zero_witness :
  calculate_extra_fuel_cost_10k 0 51.0 1.51 = Ok 0 /\
  calculate_extra_fuel_cost_10k 54.3 (-51.0) 1.51 = Ok 0 /\
  calculate_extra_fuel_cost_10k 54.3 51.0 0 = Ok 0 /\
  calculate_extra_tyre_cost_10k 240.0 283.2 (-20000) = Ok 0.
Proof.
  split; [| split; [| split]].
  - apply (proj1 helpers_degrade_to_zero). left. vm_compute. discriminate.
  - apply (proj1 helpers_degrade_to_zero). right. left. vm_compute. discriminate.
  - apply (proj1 helpers_degrade_to_zero). right. right. vm_compute. discriminate.
  - apply (proj2 helpers_degrade_to_zero). vm_compute. discriminate.
Defined.


(** ** One van class *)

Lemma getitem_registered (name : string) (prm : Params) :
  DEFAULT_PARAMS !! name = Some prm -> getitem DEFAULT_PARAMS name = Ok prm.
Proof. intros H. unfold getitem. now rewrite H. Qed.

Lemma getitem_unknown (name : string) :
  DEFAULT_PARAMS !! name = None -> getitem DEFAULT_PARAMS name = Raise (KeyError name).
Proof. intros H. unfold getitem. now rewrite H. Qed.

Lemma process_van_type_unknown name price form summary :
  DEFAULT_PARAMS !! name = None ->
  process_van_type name price form summary = Raise (KeyError name).
Proof. intros H. unfold process_van_type. now rewrite (getitem_unknown _ H). Qed.

(** The unit saving of a class never raises. *)
Lemma total_extra_cost_10k_total (prm : Params) (price : Q) :
  exists unit, total_extra_cost_10k prm price = Ok unit.
Proof.
  unfold total_extra_cost_10k.
  destruct (fuel_cost_total (mpg_std prm) (mpg_under prm) price) as [ef ->].
  destruct (tyre_cost_total (tyre_cost_std prm) (tyre_cost_under prm)
              DEFAULT_TYRE_LIFESPAN_MILES) as [et ->].
  now eexists.
Qed.

(** The branch taken when both form fields are positive. *)
Lemma process_van_type_active name prm price form summary unit :
  DEFAULT_PARAMS !! name = Some prm ->
  (0 < count (form name))%Z -> (0 < miles (form name))%Z ->
  total_extra_cost_10k prm price = Ok unit ->
  process_van_type name price form summary =
    Ok (inject_Z (miles (form name)) / 10000 * unit * inject_Z (count (form name)),
        <[name := unit]> summary).
Proof.
  intros Hreg Hc Hm Hunit. unfold process_van_type.
  rewrite (getitem_registered _ _ Hreg). cbn [mbind result_bind Py.bind].
  rewrite (proj2 (Z.ltb_lt _ _) Hc), (proj2 (Z.ltb_lt _ _) Hm). cbn [andb].
  unfold total_extra_cost_10k in Hunit.
  destruct (calculate_extra_fuel_cost_10k _ _ _) as [ef |]; [| discriminate].
  destruct (calculate_extra_tyre_cost_10k _ _ _) as [et |]; [| discriminate].
  cbn in Hunit. injection Hunit as <-. reflexivity.
Qed.

(** The branch taken when a form field is zero (or negative). *)
Lemma process_van_type_idle name prm price form summary :
  DEFAULT_PARAMS !! name = Some prm ->
  ~ ((0 < count (form name))%Z /\ (0 < miles (form name))%Z) ->
  process_van_type name price form summary = Ok (0, <[name := 0]> summary).
Proof.
  intros Hreg Hno. unfold process_van_type.
  rewrite (getitem_registered _ _ Hreg). cbn [mbind result_bind Py.bind].
  destruct (0 <? count (form name))%Z eqn:Ec; [| reflexivity].
  destruct (0 <? miles (form name))%Z eqn:Em; [| reflexivity].
  exfalso. apply Hno. split; now apply Z.ltb_lt.
Qed.

(** A registered class never raises. *)
Lemma process_van_type_registered name prm price form summary :
  DEFAULT_PARAMS !! name = Some prm ->
  exists a summary', process_van_type name price form summary = Ok (a, summary').
Proof.
  intros Hreg.
  destruct (total_extra_cost_10k_total prm price) as [unit Hunit].
  destruct (Z_lt_dec 0 (count (form name))) as [Hc | Hc];
    [destruct (Z_lt_dec 0 (miles (form name))) as [Hm | Hm] |].
  - do 2 eexists. now apply (process_van_type_active _ prm _ _ _ unit).
  - do 2 eexists. apply (process_van_type_idle _ prm); [assumption | tauto].
  - do 2 eexists. apply (process_van_type_idle _ prm); [assumption | tauto].
Qed.

(** What [process_van_type] returns does not depend on the summary it is
    given. *)
Lemma process_van_type_returned name price form summary summary' :
  returned (process_van_type name price form summary) =
  returned (process_van_type name price form summary').
Proof.
  destruct (DEFAULT_PARAMS !! name) as [prm |] eqn:Hreg.
  - destruct (total_extra_cost_10k_total prm price) as [unit Hunit].
    destruct (Z_lt_dec 0 (count (form name))) as [Hc | Hc];
      [destruct (Z_lt_dec 0 (miles (form name))) as [Hm | Hm] |].
    + now rewrite !(process_van_type_active _ prm _ _ _ unit).
    + rewrite !(process_van_type_idle _ prm); tauto.
    + rewrite !(process_van_type_idle _ prm); tauto.
  - now rewrite !process_van_type_unknown.
Qed.

Lemma class_annual_saving_returned name price form summary a summary' :
  process_van_type name price form summary = Ok (a, summary') ->
  class_annual_saving name price form = a.
Proof.
  intros H. unfold class_annual_saving.
  rewrite (process_van_type_returned _ _ _ ∅ summary), H. reflexivity.
Qed.

Lemma small_van_registered :
  DEFAULT_PARAMS !! "Small Van"%string = Some (mkParams 54.3 51.0 240.0 283.2).
Proof. reflexivity. Qed.


(** C5, as the code has it: for a registered class with both form fields
    positive, the annual saving is (miles / 10000) * unit saving * count, the
    unit saving being the sum of the two helpers, and the summary records that
    unit saving; otherwise the annual saving is 0 and the summary records 0
    for the class (the key exists, the unit saving is not stored). *)
Theorem class_annual_saving_cases name prm price form summary :
  DEFAULT_PARAMS !! name = Some prm ->
  exists unit a summary',
    total_extra_cost_10k prm price = Ok unit /\
    process_van_type name price form summary = Ok (a, summary') /\
    class_annual_saving name price form = a /\
    ((0 < count (form name))%Z /\ (0 < miles (form name))%Z ->
       a == inject_Z (miles (form name)) / 10000 * unit * inject_Z (count (form name)) /\
       summary' !! name = Some unit) /\
    (~ ((0 < count (form name))%Z /\ (0 < miles (form name))%Z) ->
       a = 0 /\ summary' !! name = Some 0).
Proof.
  intros Hreg.
  destruct (total_extra_cost_10k_total prm price) as [unit Hunit].
  exists unit.
  destruct (Z_lt_dec 0 (count (form name))) as [Hc | Hc];
    [destruct (Z_lt_dec 0 (miles (form name))) as [Hm | Hm] |].
  - pose proof (process_van_type_active _ _ _ _ summary _ Hreg Hc Hm Hunit) as Hrun.
    do 2 eexists. split; [exact Hunit |]. split; [exact Hrun |].
    split; [exact (class_annual_saving_returned _ _ _ _ _ _ Hrun) |].
    split; [| tauto].
    intros _. split; [reflexivity | apply lookup_insert_eq].
  - assert (Hno : ~ ((0 < count (form name))%Z /\ (0 < miles (form name))%Z)) by tauto.
    pose proof (process_van_type_idle _ _ price _ summary Hreg Hno) as Hrun.
    do 2 eexists. split; [exact Hunit |]. split; [exact Hrun |].
    split; [exact (class_annual_saving_returned _ _ _ _ _ _ Hrun) |].
    split; [tauto |].
    intros _. split; [reflexivity | apply lookup_insert_eq].
  - assert (Hno : ~ ((0 < count (form name))%Z /\ (0 < miles (form name))%Z)) by tauto.
    pose proof (process_van_type_idle _ _ price _ summary Hreg Hno) as Hrun.
    do 2 eexists. split; [exact Hunit |]. split; [exact Hrun |].
    split; [exact (class_annual_saving_returned _ _ _ _ _ _ Hrun) |].
    split; [tauto |].
    intros _. split; [reflexivity | apply lookup_insert_eq].
Qed.

Lemma class_annual_saving_cases_witness :
  exists unit a summary',
    total_extra_cost_10k (mkParams 54.3 51.0 240.0 283.2) 1.51 = Ok unit /\
    process_van_type "Small Van" 1.51 (uniform_form 3 12000) ∅ = Ok (a, summary') /\
    a == 12000 / 10000 * unit * 3 /\
    summary' !! "Small Van"%string = Some unit.
Proof.
  destruct (class_annual_saving_cases "Small Van" (mkParams 54.3 51.0 240.0 283.2)
              1.51 (uniform_form 3 12000) ∅ small_van_registered)
    as (unit & a & summary' & Hunit & Hrun & _ & Hactive & _).
  exists unit, a, summary'.
  destruct Hactive as [Ha Hrec]; [split; reflexivity |].
  repeat (split; [assumption |]). assumption.
Defined.

(** The unit saving of a Small Van at 1.51 per litre. *)
Lemma small_van_unit_saving :
  exists unit,
    total_extra_cost_10k (mkParams 54.3 51.0 240.0 283.2) 1.51 = Ok unit /\
    unit == 954495149 # 9231000.
Proof. eexists. split; reflexivity. Qed.

(** C5 as stated fails in its last part: with a count of 0 the summary
    records 0 for the class, which is not the unit saving of the class. *)
Lemma idle_class_records_zero_not_unit_saving :
  exists prm unit a summary',
    DEFAULT_PARAMS !! "Small Van"%string = Some prm /\
    total_extra_cost_10k prm 1.51 = Ok unit /\
    process_van_type "Small Van" 1.51 (uniform_form 0 10000) ∅ = Ok (a, summary') /\
    a = 0 /\
    summary' !! "Small Van"%string = Some 0 /\
    ~ (exists v, summary' !! "Small Van"%string = Some v /\ v == unit).
Proof.
  destruct small_van_unit_saving as (unit & Hunit & Hval).
  exists (mkParams 54.3 51.0 240.0 283.2), unit, 0,
    (<["Small Van"%string := 0]> ∅).
  split; [reflexivity |]. split; [exact Hunit |].
  split; [reflexivity |]. split; [reflexivity |].
  split; [apply lookup_insert_eq |].
  intros (v & Hv & Hvu). rewrite lookup_insert_eq in Hv. injection Hv as <-.
  rewrite Hval in Hvu. discriminate.
Qed.



(** ** The accumulation over the classes *)


(** Over registered classes the accumulation returns. *)
Lemma process_all_registered names price form :
  Forall (fun name => is_Some (DEFAULT_PARAMS !! name)) names ->
  forall total summary,
    exists t s, process_all names price form total summary = Ok (t, s).
Proof.
  induction 1 as [| name rest [prm Hreg] _ IH]; intros total summary.
  - now do 2 eexists.
  - destruct (process_van_type_registered name prm price form summary Hreg)
      as (a & s1 & Hstep).
    destruct (IH (total + a) s1) as (t & s & Hrest).
    exists t, s. cbn [process_all]. rewrite Hstep. exact Hrest.
Qed.


(** * Further properties of the code *)

(** ** The catalog *)

Lemma catalog_entries (name : string) (prm : Params) :
  DEFAULT_PARAMS !! name = Some prm ->
  (name = "Small Van"%string /\ prm = mkParams 54.3 51.0 240.0 283.2) \/
  (name = "Medium Van"%string /\ prm = mkParams 44.8 42.1 320.0 377.6) \/
  (name = "Large Van"%string /\ prm = mkParams 40.9 38.4 380.0 448.4) \/
  (name = "Long Wheelbase Van"%string /\ prm = mkParams 32.5 30.6 380.0 448.4).
Proof.
  unfold DEFAULT_PARAMS. rewrite !lookup_insert, lookup_empty.
  intros Hentry.
  repeat case_decide; try discriminate Hentry;
    injection Hentry as <-; subst name; tauto.
Qed.

(** X4: the classes the script processes are exactly the keys of the
    catalog, and every catalog entry has
    0 < mpg_under < mpg_std and 0 < tyre_cost_std < tyre_cost_under. *)
Theorem catalog_well_formed (name : string) :
  (is_Some (DEFAULT_PARAMS !! name) <-> name ∈ VAN_TYPES) /\
  (forall prm, DEFAULT_PARAMS !! name = Some prm ->
     0 < mpg_under prm /\ mpg_under prm < mpg_std prm /\
     0 < tyre_cost_std prm /\ tyre_cost_std prm < tyre_cost_under prm).
Proof.
  split; [split |].
  - intros [prm Hreg]. unfold VAN_TYPES. rewrite !elem_of_cons.
    destruct (catalog_entries name prm Hreg) as [[-> _] | [[-> _] | [[-> _] | [-> _]]]];
      tauto.
  - unfold VAN_TYPES. rewrite !elem_of_cons, elem_of_nil.
    intros [-> | [-> | [-> | [-> | []]]]]; now eexists.
  - intros prm Hreg.
    destruct (catalog_entries name prm Hreg) as [[_ ->] | [[_ ->] | [[_ ->] | [_ ->]]]];
      repeat split.
Qed.

(** ** One van class, continued *)

Lemma active_iff (form : Form) (name : string) :
  active form name = true <->
  (0 < count (form name))%Z /\ (0 < miles (form name))%Z.
Proof. unfold active. rewrite andb_true_iff, !Z.ltb_lt. reflexivity. Qed.

(** Whatever summary it is given, the step of a registered class returns the
    same saving and writes [recorded_saving] under the class name. *)
Lemma process_van_type_write name prm price form :
  DEFAULT_PARAMS !! name = Some prm ->
  exists a,
    forall summary,
      process_van_type name price form summary =
        Ok (a, <[name := recorded_saving price form name]> summary).
Proof.
  intros Hreg.
  destruct (total_extra_cost_10k_total prm price) as [unit Hunit].
  unfold recorded_saving. rewrite Hreg, Hunit.
  destruct (active form name) eqn:Hact.
  - apply active_iff in Hact as [Hc Hm]. eexists. intros summary.
    now apply (process_van_type_active _ prm).
  - assert (Hno : ~ ((0 < count (form name))%Z /\ (0 < miles (form name))%Z)).
    { rewrite <- active_iff. congruence. }
    exists 0. intros summary. now apply (process_van_type_idle _ prm).
Qed.

(** ** The accumulation, continued *)

(** Each successful step is a step of a registered class. *)
Lemma process_van_type_ok_registered name price form summary a summary' :
  process_van_type name price form summary = Ok (a, summary') ->
  exists prm, DEFAULT_PARAMS !! name = Some prm.
Proof.
  intros Hrun. destruct (DEFAULT_PARAMS !! name) as [prm |] eqn:Hreg; [now eexists |].
  rewrite (process_van_type_unknown _ _ _ _ Hreg) in Hrun. discriminate.
Qed.

(** X8: when the accumulation over a list of names returns, the summary has
    gained exactly those names as keys, every other key keeps its value, and
    each processed name maps to the unit saving of its class if the class is
    active on the form and to 0 otherwise. *)
Theorem process_all_summary names price form :
  forall total summary t s,
    process_all names price form total summary = Ok (t, s) ->
    dom s = dom summary ∪ list_to_set names /\
    (forall k, k ∉ names -> s !! k = summary !! k) /\
    (forall k, k ∈ names ->
       exists prm unit,
         DEFAULT_PARAMS !! k = Some prm /\
         total_extra_cost_10k prm price = Ok unit /\
         s !! k = Some (if active form k then unit else 0)).
Proof.
  induction names as [| name rest IH]; intros total summary t s Hrun.
  - cbn in Hrun. injection Hrun as <- <-.
    split; [cbn; now rewrite union_empty_r_L |]. split; [reflexivity |].
    intros k Hk. now apply elem_of_nil in Hk.
  - cbn [process_all] in Hrun.
    destruct (process_van_type name price form summary) as [[a s1] | e] eqn:Hstep;
      [| discriminate].
    cbn in Hrun.
    destruct (process_van_type_ok_registered _ _ _ _ _ _ Hstep) as [prm Hreg].
    destruct (process_van_type_write name prm price form Hreg) as (a' & Hwrite).
    rewrite Hwrite in Hstep. injection Hstep as -> <-.
    destruct (IH _ _ _ _ Hrun) as (Hdom & Hframe & Hvals).
    split; [| split].
    + rewrite Hdom, dom_insert_L, list_to_set_cons.
      rewrite (union_comm_L {[name]} (dom summary)). now rewrite (assoc_L (∪)).
    + intros k Hk. apply not_elem_of_cons in Hk as [Hne Hk].
      rewrite (Hframe k Hk). now apply lookup_insert_ne.
    + intros k Hk. destruct (decide (k ∈ rest)) as [Hin | Hout]; [now apply Hvals |].
      apply elem_of_cons in Hk as [-> | Hk]; [| contradiction].
      destruct (total_extra_cost_10k_total prm price) as [unit Hunit].
      exists prm, unit. split; [exact Hreg |]. split; [exact Hunit |].
      rewrite (Hframe name Hout), lookup_insert_eq.
      unfold recorded_saving. now rewrite Hreg, Hunit.
Qed.

Lemma process_all_summary_witness :
  exists t s,
    process_all ["Large Van"; "Small Van"]%string 1.51 small_van_only 0 ∅ = Ok (t, s) /\
    dom s = dom (∅ : gmap string Q) ∪ list_to_set ["Large Van"; "Small Van"]%string /\
    s !! "Medium Van"%string = None /\
    s !! "Large Van"%string = Some 0.
Proof.
  destruct (process_all_registered ["Large Van"; "Small Van"]%string 1.51 small_van_only)
    with (total := 0) (summary := (∅ : gmap string Q)) as (t & s & Hrun).
  { repeat constructor; now eexists. }
  exists t, s. split; [exact Hrun |].
  destruct (process_all_summary _ _ _ _ _ _ _ Hrun) as (Hdom & Hframe & Hvals).
  split; [exact Hdom |]. split.
  - rewrite Hframe; [reflexivity |].
    rewrite !elem_of_cons, elem_of_nil. intros [H | [H | []]]; discriminate H.
  - destruct (Hvals "Large Van"%string) as (prm & unit & _ & _ & Hv).
    + apply elem_of_cons. now left.
    + exact Hv.
Defined.

(** * The rounding of binary64 operations *)

(** ** Powers of two *)

Lemma p2_pos (e : Z) : 0 < p2 e.
Proof. apply Qpower_0_lt. reflexivity. Qed.

Lemma p2_add (a b : Z) : p2 (a + b) == p2 a * p2 b.
Proof. apply Qpower_plus. discriminate. Qed.

Lemma p2_le (a b : Z) : (a <= b)%Z -> p2 a <= p2 b.
Proof. intros H. apply Qpower_le_compat_l; [exact H | discriminate]. Qed.

Lemma p2_Z (n : Z) : (0 <= n)%Z -> inject_Z (2 ^ n) == p2 n.
Proof. intros H. unfold p2. now rewrite Zpower_Qpower. Qed.

Lemma p2_succ (e : Z) : p2 (e + 1) == 2 * p2 e.
Proof. rewrite p2_add. change (p2 1) with 2. ring. Qed.

Lemma p2_sub (a b : Z) : p2 (a - b) == p2 a / p2 b.
Proof.
  unfold Z.sub. rewrite p2_add. unfold p2 at 2. rewrite Qpower_opp. reflexivity.
Qed.

(** ** Binary digits *)

Lemma digits2_pos_size (m : positive) : digits2_pos m = Pos.size m.
Proof. induction m; cbn; congruence. Qed.

Lemma digits_bounds (m : positive) :
  (2 ^ (Zpos (digits2_pos m) - 1) <= Zpos m < 2 ^ Zpos (digits2_pos m))%Z.
Proof.
  rewrite digits2_pos_size. split.
  - pose proof (Pos.size_le m) as H.
    assert (E : (2 ^ Zpos (Pos.size m) = 2 * 2 ^ (Zpos (Pos.size m) - 1))%Z).
    { rewrite <- Z.pow_succ_r by lia. f_equal. lia. }
    assert (H' : (2 ^ Zpos (Pos.size m) <= Zpos m~0)%Z).
    { rewrite <- Pos2Z.inj_pow. apply Pos2Z.pos_le_pos. exact H. }
    lia.
  - pose proof (Pos.size_gt m) as H.
    rewrite <- Pos2Z.inj_pow. apply Pos2Z.pos_lt_pos. exact H.
Qed.

Lemma Zdigits2_nonneg (q : Z) : (0 <= Zdigits2 q)%Z.
Proof. destruct q; cbn; lia. Qed.

(** ** [iter_pos] *)

Lemma iter_pos_nat {A : Type} (f : A -> A) (p : positive) (x : A) :
  SpecFloat.iter_pos f p x = Nat.iter (Pos.to_nat p) f x.
Proof.
  revert x. induction p as [p IH | p IH |]; intros x; cbn [SpecFloat.iter_pos].
  - rewrite !IH, Pos2Nat.inj_xI.
    replace (S (2 * Pos.to_nat p))%nat with (Pos.to_nat p + (Pos.to_nat p + 1))%nat by lia.
    rewrite !Nat.iter_add. cbn. reflexivity.
  - rewrite !IH, Pos2Nat.inj_xO.
    replace (2 * Pos.to_nat p)%nat with (Pos.to_nat p + Pos.to_nat p)%nat by lia.
    now rewrite Nat.iter_add.
  - reflexivity.
Qed.

(** ** Brackets: where a rational lies between two consecutive integers *)

Lemma inb_ext (m : Z) (l : SpecFloat.location) (X Y : Q) :
  X == Y -> inb m l X -> inb m l Y.
Proof. intros E. destruct l as [| []]; cbn; rewrite E; tauto. Qed.

Lemma inb_bounds (m : Z) (l : SpecFloat.location) (X : Q) :
  inb m l X -> inject_Z m <= X /\ X < inject_Z m + 1.
Proof. destruct l as [| []]; cbn; intros H; split; lra. Qed.

Lemma inject_Z_xO (p : positive) : inject_Z (Zpos p~0) == 2 * inject_Z (Zpos p).
Proof. change (Zpos p~0) with (2 * Zpos p)%Z. now rewrite inject_Z_mult. Qed.

Lemma inject_Z_xI (p : positive) : inject_Z (Zpos p~1) == 2 * inject_Z (Zpos p) + 1.
Proof.
  change (Zpos p~1) with (2 * Zpos p + 1)%Z. now rewrite inject_Z_plus, inject_Z_mult.
Qed.

Lemma shr_1_inb (mrs : shr_record) (X : Q) :
  (0 <= shr_m mrs)%Z -> inb_rec mrs X ->
  inb_rec (shr_1 mrs) (X * (1 # 2)) /\ (0 <= shr_m (shr_1 mrs))%Z.
Proof.
  destruct mrs as [m r s]. unfold inb_rec. cbn [shr_m].
  intros Hm H.
  destruct m as [| p | p]; [| | lia].
  - destruct r, s; cbn in *; (split; [| lia]);
      change (inject_Z 0) with 0 in *; try split; lra.
  - destruct p as [p | p |]; destruct r, s; cbn in *; (split; [| lia]);
      rewrite ?inject_Z_xI, ?inject_Z_xO in H;
      change (inject_Z 1) with 1 in *; change (inject_Z 0) with 0 in *;
      try split; lra.
Qed.

Lemma iter_shr_1_inb (n : nat) (mrs : shr_record) (X : Q) :
  (0 <= shr_m mrs)%Z -> inb_rec mrs X ->
  inb_rec (Nat.iter n shr_1 mrs) (X / p2 (Z.of_nat n)) /\
  (0 <= shr_m (Nat.iter n shr_1 mrs))%Z.
Proof.
  intros Hm H. induction n as [| n [IH1 IH2]].
  - cbn. split; [| exact Hm]. apply (inb_ext _ _ X); [| exact H].
    change (p2 (Z.of_nat 0)) with 1. field.
  - cbn [Nat.iter]. destruct (shr_1_inb _ _ IH2 IH1) as [H1 H2].
    split; [| exact H2].
    apply (inb_ext _ _ (X / p2 (Z.of_nat n) * (1 # 2))); [| exact H1].
    rewrite Nat2Z.inj_succ. unfold Z.succ. rewrite p2_succ.
    field. pose proof (p2_pos (Z.of_nat n)). lra.
Qed.

Lemma shr_inb (mrs : shr_record) (e n : Z) (X : Q) :
  (0 <= shr_m mrs)%Z -> inb_rec mrs X ->
  inb_rec (fst (SpecFloat.shr mrs e n)) (X / p2 (Z.max 0 n)) /\
  (0 <= shr_m (fst (SpecFloat.shr mrs e n)))%Z /\
  snd (SpecFloat.shr mrs e n) = (e + Z.max 0 n)%Z.
Proof.
  intros Hm H. destruct n as [| p | p]; cbn [SpecFloat.shr fst snd].
  - split; [| split; [exact Hm | cbn; lia]].
    apply (inb_ext _ _ X); [| exact H]. change (p2 (Z.max 0 0)) with 1. field.
  - rewrite iter_pos_nat.
    destruct (iter_shr_1_inb (Pos.to_nat p) mrs X Hm H) as [H1 H2].
    rewrite positive_nat_Z in H1.
    split; [| split; [exact H2 | reflexivity]].
    exact H1.
  - split; [| split; [exact Hm | cbn; lia]].
    apply (inb_ext _ _ X); [| exact H]. change (p2 (Z.max 0 (Z.neg p))) with 1. field.
Qed.

Lemma shr_record_of_loc_inb (m : Z) (l : SpecFloat.location) (X : Q) :
  inb m l X -> inb_rec (shr_record_of_loc m l) X.
Proof. unfold inb_rec. destruct l as [| []]; cbn; tauto. Qed.

(** ** Rounding to nearest, ties to even *)

Lemma is_rne_exact (z : Z) : is_rne (inject_Z z) z.
Proof. unfold is_rne. split; [lra |]. split; [lra |]. intros [H | H]; lra. Qed.

Lemma inject_Z_succ (m : Z) : inject_Z (m + 1) == inject_Z m + 1.
Proof. now rewrite inject_Z_plus. Qed.

Lemma round_nearest_even_rne (m : Z) (l : SpecFloat.location) (X : Q) :
  inb m l X -> is_rne X (round_nearest_even m l).
Proof.
  destruct l as [| []]; cbn [inb round_nearest_even]; intros H; unfold is_rne.
  - split; [lra |]. split; [lra |]. intros [E | E]; lra.
  - destruct (Z.even m) eqn:Hev.
    + split; [lra |]. split; [lra |]. intros _. exact Hev.
    + rewrite inject_Z_succ. split; [lra |]. split; [lra |]. intros _.
      rewrite Z.even_add, Hev. reflexivity.
  - split; [lra |]. split; [lra |]. intros [E | E]; lra.
  - rewrite inject_Z_succ. split; [lra |]. split; [lra |]. intros [E | E]; lra.
Qed.

Lemma round_nearest_even_nonneg (m : Z) (l : SpecFloat.location) :
  (0 <= m)%Z -> (0 <= round_nearest_even m l)%Z.
Proof. intros H. destruct l as [| []]; cbn; try destruct (Z.even m); lia. Qed.

Lemma is_rne_mono (X Y : Q) (z w : Z) :
  X <= Y -> is_rne X z -> is_rne Y w -> (z <= w)%Z.
Proof.
  intros Hle (Hz1 & Hz2 & Hz3) (Hw1 & Hw2 & Hw3).
  destruct (Z_le_gt_dec z w) as [H | H]; [exact H | exfalso].
  assert (Hzw : inject_Z w + 1 <= inject_Z z).
  { rewrite <- inject_Z_succ, <- Zle_Qle. lia. }
  assert (E1 : X == inject_Z z - (1 # 2)) by lra.
  assert (E2 : Y == inject_Z w + (1 # 2)) by lra.
  assert (E3 : inject_Z z == inject_Z (w + 1)) by (rewrite inject_Z_succ; lra).
  assert (E4 : z = (w + 1)%Z) by (apply inject_Z_injective; exact E3).
  specialize (Hz3 (or_introl E1)). specialize (Hw3 (or_intror E2)).
  rewrite E4, Z.even_add, Hw3 in Hz3. discriminate Hz3.
Qed.

(** ** The rounding of [binary_round_aux] *)

Lemma fexp64_spec (k : Z) : SpecFloat.fexp prec emax k = fexp64 k.
Proof. reflexivity. Qed.

Lemma Zdigits2_bounds (q : Z) :
  (0 < q)%Z -> (2 ^ (Zdigits2 q - 1) <= q < 2 ^ Zdigits2 q)%Z.
Proof. destruct q as [| p | p]; try lia. intros _. apply digits_bounds. Qed.

Lemma Zdigits2_pos (q : Z) : (0 < q)%Z -> (0 < Zdigits2 q)%Z.
Proof. destruct q; cbn; lia. Qed.

Lemma Zdigits2_le (q : Z) (k : Z) : (0 <= k)%Z -> (0 <= q < 2 ^ k)%Z -> (Zdigits2 q <= k)%Z.
Proof.
  intros Hk [H0 Hq]. destruct (Z.eq_dec q 0%Z) as [-> | Hne]; [cbn; lia |].
  pose proof (Zdigits2_bounds q ltac:(lia)) as [Hlo _].
  pose proof (Zdigits2_pos q ltac:(lia)) as Hd.
  assert (Hlt : (2 ^ (Zdigits2 q - 1) < 2 ^ k)%Z) by lia.
  apply Z.pow_lt_mono_r_iff in Hlt; lia.
Qed.

(** Below 2^dq, as a rational. *)
Lemma below_p2_digits (q : Z) (l : SpecFloat.location) (X : Q) :
  (0 <= q)%Z -> inb q l X -> X < p2 (Zdigits2 q).
Proof.
  intros Hq H. apply inb_bounds in H as [_ H].
  destruct (Z.eq_dec q 0%Z) as [-> | Hne].
  - change (inject_Z 0) with 0 in H. change (p2 (Zdigits2 0)) with 1. lra.
  - pose proof (Zdigits2_bounds q ltac:(lia)) as [_ Hhi].
    pose proof (Zdigits2_pos q ltac:(lia)) as Hd.
    assert (Hle : inject_Z q + 1 <= inject_Z (2 ^ Zdigits2 q)).
    { rewrite <- inject_Z_succ, <- Zle_Qle. lia. }
    rewrite p2_Z in Hle by lia. lra.
Qed.

Lemma above_p2_digits (q : Z) (l : SpecFloat.location) (X : Q) :
  (0 < q)%Z -> inb q l X -> p2 (Zdigits2 q - 1) <= X.
Proof.
  intros Hq H. apply inb_bounds in H as [H _].
  pose proof (Zdigits2_bounds q Hq) as [Hlo _].
  pose proof (Zdigits2_pos q Hq) as Hd.
  rewrite <- p2_Z by lia. rewrite Zle_Qle in Hlo. lra.
Qed.

Lemma second_shr (z c : Z) :
  (0 <= z <= 2 ^ 53)%Z -> (-1074 <= c)%Z ->
  let r := shr_fexp prec emax z c loc_Exact in
  (z < 2 ^ 53 /\ shr_m (fst r) = z /\ snd r = c)%Z \/
  (z = 2 ^ 53 /\ shr_m (fst r) = 2 ^ 52 /\ snd r = c + 1)%Z.
Proof.
  intros [Hz0 Hz] Hc. cbn zeta. unfold shr_fexp. rewrite fexp64_spec.
  destruct (Z.eq_dec z (2 ^ 53)%Z) as [-> | Hne].
  - right. split; [reflexivity |].
    change (Zdigits2 (2 ^ 53)%Z) with 54%Z.
    replace (fexp64 (54 + c) - c)%Z with 1%Z by (unfold fexp64; lia).
    cbn. split; [reflexivity | lia].
  - left. split; [lia |].
    assert (Hd : (Zdigits2 z <= 53)%Z) by (apply Zdigits2_le; lia).
    assert (Hn : (fexp64 (Zdigits2 z + c) - c <= 0)%Z) by (unfold fexp64; lia).
    destruct (fexp64 (Zdigits2 z + c) - c)%Z as [| p | p] eqn:E; try lia; cbn; auto.
Qed.

Lemma shr_m_of_loc (m : Z) (l : SpecFloat.location) : shr_m (shr_record_of_loc m l) = m.
Proof. destruct l as [| []]; reflexivity. Qed.

Lemma bounded_intro (m : positive) (e : Z) :
  (-1074 <= e <= 971)%Z -> (Zpos m < 2 ^ 53)%Z ->
  ((-1074 < e)%Z -> (2 ^ 52 <= Zpos m)%Z) ->
  bounded prec emax m e = true.
Proof.
  intros He Hm Hn. unfold bounded, canonical_mantissa. rewrite fexp64_spec.
  apply andb_true_iff. split; [| apply Z.leb_le; change (emax - prec)%Z with 971%Z; lia].
  apply Z.eqb_eq.
  pose proof (Zdigits2_le (Zpos m) 53 ltac:(lia) ltac:(lia)) as Hd. cbn [Zdigits2] in Hd.
  pose proof (digits_bounds m) as [_ Hhi].
  unfold fexp64. destruct (Z_le_gt_dec e (-1074)) as [H | H]; [lia |].
  specialize (Hn ltac:(lia)).
  assert (Hlt : (2 ^ 52 < 2 ^ Zpos (digits2_pos m))%Z) by lia.
  apply Z.pow_lt_mono_r_iff in Hlt; lia.
Qed.

(** What [binary_round_aux] computes: from a bracket [(q, l)] of the exact
    mantissa [X] at exponent [e], the mantissa [z] nearest to the value at
    the exponent binary64 prescribes, packed as a zero, a finite float or
    an infinity. *)
Lemma binary_round_aux_sem (q e : Z) (l : SpecFloat.location) (X : Q) :
  (0 <= q)%Z -> inb q l X -> (e <= fexp64 (Zdigits2 q + e))%Z ->
  exists z,
    is_rne (X / p2 (fexp64 (Zdigits2 q + e) - e)) z /\
    (0 <= z <= 2 ^ 53)%Z /\
    ((-1074 < fexp64 (Zdigits2 q + e))%Z -> (2 ^ 52 <= z)%Z) /\
    rounded (binary_round_aux prec emax false q e l) z (fexp64 (Zdigits2 q + e)).
Proof.
  intros Hq HX Hn.
  set (c := fexp64 (Zdigits2 q + e)) in *.
  assert (Hc : (-1074 <= c)%Z) by (unfold c, fexp64; lia).
  unfold binary_round_aux.
  destruct (shr_fexp prec emax q e l) as [mrs1 e1] eqn:E1.
  unfold shr_fexp in E1. rewrite fexp64_spec in E1. fold c in E1.
  destruct (shr_inb (shr_record_of_loc q l) e (c - e) X) as (H1 & H2 & H3).
  { now rewrite shr_m_of_loc. }
  { now apply shr_record_of_loc_inb. }
  rewrite E1 in H1, H2, H3. cbn [fst snd] in H1, H2, H3.
  rewrite Z.max_r in H1 by lia. rewrite Z.max_r in H3 by lia.
  assert (He1 : e1 = c) by lia. clear H3. subst e1.
  set (z := round_nearest_even (shr_m mrs1) (loc_of_shr_record mrs1)).
  assert (Hrne : is_rne (X / p2 (c - e)) z) by now apply round_nearest_even_rne.
  assert (Hz0 : (0 <= z)%Z) by now apply round_nearest_even_nonneg.
  (* the rounded mantissa has at most 54 digits *)
  assert (Hz53 : (z <= 2 ^ 53)%Z).
  { apply (is_rne_mono (X / p2 (c - e)) (inject_Z (2 ^ 53)) z (2 ^ 53)%Z);
      [| exact Hrne | apply is_rne_exact].
    pose proof (below_p2_digits q l X Hq HX) as Hlt.
    pose proof (p2_pos (c - e)) as Hp.
    apply Qle_shift_div_r; [exact Hp |].
    rewrite p2_Z by lia. rewrite <- p2_add.
    apply Qlt_le_weak. eapply Qlt_le_trans; [exact Hlt |].
    apply p2_le. unfold c, fexp64. lia. }
  pose proof (second_shr z c (conj Hz0 Hz53) Hc) as Hsnd. cbn zeta in Hsnd.
  destruct (shr_fexp prec emax z c loc_Exact) as [mrs2 e2] eqn:E2.
  cbn [fst snd] in Hsnd.
  (* when the exponent is above the least one, the mantissa is normal *)
  assert (Hnormal : (-1074 < c)%Z -> (2 ^ 52 <= z)%Z).
  { intros Hbig.
    assert (Hceq : c = (Zdigits2 q + e - 53)%Z) by (unfold c, fexp64 in *; lia).
    assert (Hqpos : (0 < q)%Z).
    { destruct (Z.eq_dec q 0%Z) as [-> | Hne]; [| lia].
      cbn in Hceq. lia. }
    apply (is_rne_mono (inject_Z (2 ^ 52)) (X / p2 (c - e)) (2 ^ 52)%Z z);
      [| apply is_rne_exact | exact Hrne].
    pose proof (above_p2_digits q l X Hqpos HX) as Hge.
    pose proof (p2_pos (c - e)) as Hp.
    apply Qle_shift_div_l; [exact Hp |].
    rewrite p2_Z by lia. rewrite <- p2_add.
    eapply Qle_trans; [| exact Hge]. apply p2_le. lia. }
  exists z. split; [exact Hrne |]. split; [split; [exact Hz0 | exact Hz53] |].
  split; [exact Hnormal |].
  destruct Hsnd as [(Hlt & Hm2 & He2) | (Heq & Hm2 & He2)].
  - rewrite Hm2. subst e2.
    destruct z as [| m | m] eqn:Ez; [left; auto | | lia].
    right. destruct (c <=? emax - prec)%Z eqn:Hfit.
    + left. exists m, c. split; [reflexivity |]. split; [reflexivity |].
      apply Z.leb_le in Hfit. change (emax - prec)%Z with 971%Z in Hfit.
      split; [exact Hfit |]. apply bounded_intro; [lia | lia | exact Hnormal].
    + right. split; [reflexivity |].
      apply Z.leb_gt in Hfit. change (emax - prec)%Z with 971%Z in Hfit.
      specialize (Hnormal ltac:(lia)).
      assert (H52 : p2 52 <= inject_Z (Z.pos m)).
      { rewrite <- p2_Z by lia. rewrite <- Zle_Qle. exact Hnormal. }
      replace 1024%Z with (52 + 972)%Z by reflexivity. rewrite p2_add.
      pose proof (p2_le 972 c ltac:(lia)) as Hc972.
      pose proof (p2_pos 52). pose proof (p2_pos 972).
      apply Qle_trans with (inject_Z (Z.pos m) * p2 972).
      * apply Qmult_le_compat_r; lra.
      * rewrite !(Qmult_comm (inject_Z (Z.pos m))). apply Qmult_le_compat_r; lra.
  - rewrite Hm2. subst e2.
    right. destruct (c + 1 <=? emax - prec)%Z eqn:Hfit.
    + left. exists (2 ^ 52)%positive, (c + 1)%Z. split; [reflexivity |].
      split.
      * rewrite Heq, p2_succ. change (inject_Z (Z.pos (2 ^ 52))) with (inject_Z (2 ^ 52)).
        rewrite !p2_Z by lia. change (p2 53) with (2 * p2 52). ring.
      * apply Z.leb_le in Hfit. change (emax - prec)%Z with 971%Z in Hfit.
        split; [exact Hfit |].
        apply bounded_intro; [lia | reflexivity | intros _; discriminate].
    + right. split; [reflexivity |].
      apply Z.leb_gt in Hfit. change (emax - prec)%Z with 971%Z in Hfit.
      rewrite Heq, p2_Z by lia. rewrite <- p2_add. apply p2_le. lia.
Qed.


(** ** Rounded values keep the order of the exact values *)

Lemma fexp64_mono (k k' : Z) : (k <= k')%Z -> (fexp64 k <= fexp64 k')%Z.
Proof. unfold fexp64. lia. Qed.

(** Rounding is monotone: of two exact values, the smaller rounds to the
    smaller (or the same) float value. *)
Lemma rounded_values_mono (q e : Z) (l : SpecFloat.location) (X : Q)
    (q' e' : Z) (l' : SpecFloat.location) (X' : Q) (z z' : Z) :
  (0 <= q)%Z -> inb q l X -> (e <= fexp64 (Zdigits2 q + e))%Z ->
  (0 <= q')%Z -> inb q' l' X' -> (e' <= fexp64 (Zdigits2 q' + e'))%Z ->
  X * p2 e <= X' * p2 e' ->
  is_rne (X / p2 (fexp64 (Zdigits2 q + e) - e)) z -> (0 <= z <= 2 ^ 53)%Z ->
  is_rne (X' / p2 (fexp64 (Zdigits2 q' + e') - e')) z' ->
  ((-1074 < fexp64 (Zdigits2 q' + e'))%Z -> (2 ^ 52 <= z')%Z) ->
  inject_Z z * p2 (fexp64 (Zdigits2 q + e)) <=
  inject_Z z' * p2 (fexp64 (Zdigits2 q' + e')).
Proof.
  intros Hq HX Hn Hq' HX' Hn' Hle Hz Hzb Hz' Hnorm'.
  set (k := (Zdigits2 q + e)%Z) in *. set (k' := (Zdigits2 q' + e')%Z) in *.
  set (c := fexp64 k) in *. set (c' := fexp64 k') in *.
  pose proof (p2_pos c) as Hpc. pose proof (p2_pos c') as Hpc'.
  pose proof (p2_pos e) as Hpe. pose proof (p2_pos e') as Hpe'.
  assert (Hcc : (c <= c')%Z).
  { destruct (Z_le_gt_dec c c') as [H | H]; [exact H | exfalso].
    assert (Hk : (k' < k)%Z).
    { destruct (Z_le_gt_dec k k') as [Hk | Hk]; [| lia].
      apply fexp64_mono in Hk. fold c c' in Hk. lia. }
    assert (Hceq : c = (k - 53)%Z) by (unfold c, fexp64 in *; lia).
    assert (Hqpos : (0 < q)%Z).
    { destruct (Z.eq_dec q 0%Z) as [E | Hne]; [| lia].
      exfalso. assert (Hlow : (-1074 <= c')%Z) by (unfold c', fexp64; lia).
      clear Hceq. revert Hn H Hlow. unfold c, k. rewrite E. cbn [Zdigits2].
      unfold fexp64. lia. }
    pose proof (above_p2_digits q l X Hqpos HX) as Hlo.
    pose proof (below_p2_digits q' l' X' Hq' HX') as Hhi.
    assert (H1 : p2 (k - 1) <= X * p2 e).
    { replace (k - 1)%Z with ((Zdigits2 q - 1) + e)%Z by (unfold k; lia).
      rewrite p2_add. apply Qmult_le_compat_r; lra. }
    assert (H2 : X' * p2 e' < p2 k').
    { unfold k'. rewrite p2_add. apply Qmult_lt_compat_r; lra. }
    pose proof (p2_le k' (k - 1) ltac:(lia)). lra. }
  destruct (Z.eq_dec c c') as [E | Hne].
  - rewrite <- E. apply Qmult_le_compat_r; [| lra].
    rewrite <- Zle_Qle.
    apply (is_rne_mono (X / p2 (c - e)) (X' / p2 (c' - e'))); [| exact Hz | exact Hz'].
    rewrite <- E. rewrite !p2_sub.
    assert (E1 : X / (p2 c / p2 e) == X * p2 e / p2 c) by (field; split; lra).
    assert (E2 : X' / (p2 c / p2 e') == X' * p2 e' / p2 c) by (field; split; lra).
    rewrite E1, E2. unfold Qdiv. apply Qmult_le_compat_r; [exact Hle |].
    apply Qlt_le_weak, Qinv_lt_0_compat. exact Hpc.
  - assert (Hbig : (-1074 < c')%Z) by (unfold c, c', fexp64 in *; lia).
    specialize (Hnorm' Hbig).
    assert (H1 : inject_Z z <= p2 53).
    { rewrite <- p2_Z by lia. rewrite <- Zle_Qle. lia. }
    assert (H2 : p2 52 <= inject_Z z').
    { rewrite <- p2_Z by lia. rewrite <- Zle_Qle. lia. }
    apply Qle_trans with (p2 53 * p2 c); [apply Qmult_le_compat_r; lra |].
    apply Qle_trans with (p2 52 * p2 c'); [| apply Qmult_le_compat_r; lra].
    rewrite <- !p2_add. apply p2_le. lia.
Qed.

(** ** Valid finite floats and their order *)

Lemma inject_Z_pos (z : Z) : (0 < z)%Z -> 0 < inject_Z z.
Proof. intros H. change 0 with (inject_Z 0). rewrite <- Zlt_Qlt. exact H. Qed.

Lemma valF_pos (m : positive) (e : Z) : 0 < valF m e.
Proof.
  unfold valF. apply Qmult_lt_0_compat; [apply inject_Z_pos; lia | apply p2_pos].
Qed.

Lemma valF_lt (m : positive) (e k : Z) :
  (0 <= k)%Z -> (Zpos m < 2 ^ k)%Z -> valF m e < p2 (k + e).
Proof.
  intros Hk H. unfold valF. rewrite p2_add.
  apply Qmult_lt_compat_r; [apply p2_pos |].
  rewrite <- p2_Z by lia. rewrite <- Zlt_Qlt. exact H.
Qed.

Lemma valF_ge (m : positive) (e k : Z) :
  (0 <= k)%Z -> (2 ^ k <= Zpos m)%Z -> p2 (k + e) <= valF m e.
Proof.
  intros Hk H. unfold valF. rewrite p2_add.
  apply Qmult_le_compat_r; [| apply Qlt_le_weak, p2_pos].
  rewrite <- p2_Z by lia. rewrite <- Zle_Qle. exact H.
Qed.

Lemma bounded_spec (m : positive) (e : Z) :
  bounded prec emax m e = true ->
  (-1074 <= e <= 971)%Z /\ (Zpos m < 2 ^ 53)%Z /\
  ((-1074 < e)%Z -> (2 ^ 52 <= Zpos m)%Z).
Proof.
  unfold bounded, canonical_mantissa. rewrite fexp64_spec. intros H.
  apply andb_true_iff in H as [H1 H2]. apply Z.eqb_eq in H1. apply Z.leb_le in H2.
  change (emax - prec)%Z with 971%Z in H2.
  pose proof (digits_bounds m) as [Hlo Hhi].
  set (d := Zpos (digits2_pos m)) in *.
  assert (Hd : (0 < d)%Z) by (unfold d; lia).
  unfold fexp64 in H1.
  split; [lia |]. split.
  - assert (Hd53 : (d <= 53)%Z) by lia.
    assert (Hp : (2 ^ d <= 2 ^ 53)%Z) by (apply Z.pow_le_mono_r; lia).
    lia.
  - intros He. assert (E : d = 53%Z) by lia. rewrite E in Hlo. exact Hlo.
Qed.

(** On valid finite positive floats the comparison of the specification is
    the comparison of the values. *)
Lemma SFleb_of_val (m1 : positive) (e1 : Z) (m2 : positive) (e2 : Z) :
  bounded prec emax m1 e1 = true -> bounded prec emax m2 e2 = true ->
  valF m1 e1 <= valF m2 e2 ->
  SFleb (S754_finite false m1 e1) (S754_finite false m2 e2) = true.
Proof.
  intros B1 B2 Hle.
  apply bounded_spec in B1 as (He1 & Hm1 & Hn1).
  apply bounded_spec in B2 as (He2 & Hm2 & Hn2).
  unfold SFleb, SFcompare.
  destruct (Z.compare_spec e1 e2) as [E | E | E].
  - subst e2. change (Pos.compare_cont Eq m1 m2) with (Pos.compare m1 m2).
    destruct (Pos.compare_spec m1 m2) as [H | H | H]; try reflexivity.
    exfalso. unfold valF in Hle.
    assert (Hlt : inject_Z (Zpos m2) * p2 e1 < inject_Z (Zpos m1) * p2 e1).
    { apply Qmult_lt_compat_r; [apply p2_pos |]. rewrite <- Zlt_Qlt. lia. }
    lra.
  - reflexivity.
  - exfalso. specialize (Hn1 ltac:(lia)).
    pose proof (valF_ge m1 e1 52 ltac:(lia) Hn1) as H1.
    pose proof (valF_lt m2 e2 53 ltac:(lia) Hm2) as H2.
    pose proof (p2_le (53 + e2) (52 + e1) ltac:(lia)) as H3. lra.
Qed.

Lemma val_of_SFleb (m1 : positive) (e1 : Z) (m2 : positive) (e2 : Z) :
  bounded prec emax m1 e1 = true -> bounded prec emax m2 e2 = true ->
  SFleb (S754_finite false m1 e1) (S754_finite false m2 e2) = true ->
  valF m1 e1 <= valF m2 e2.
Proof.
  intros B1 B2.
  apply bounded_spec in B1 as (He1 & Hm1 & Hn1).
  apply bounded_spec in B2 as (He2 & Hm2 & Hn2).
  unfold SFleb, SFcompare.
  destruct (Z.compare_spec e1 e2) as [E | E | E].
  - subst e2. change (Pos.compare_cont Eq m1 m2) with (Pos.compare m1 m2).
    destruct (Pos.compare_spec m1 m2) as [H | H | H]; intros Hc; try discriminate Hc.
    + subst m2. apply Qle_refl.
    + unfold valF. apply Qmult_le_compat_r; [| apply Qlt_le_weak, p2_pos].
      rewrite <- Zle_Qle. lia.
  - intros _. specialize (Hn2 ltac:(lia)).
    pose proof (valF_ge m2 e2 52 ltac:(lia) Hn2) as H1.
    pose proof (valF_lt m1 e1 53 ltac:(lia) Hm1) as H2.
    pose proof (p2_le (53 + e1) (52 + e2) ltac:(lia)) as H3. lra.
  - intros Hc. discriminate Hc.
Qed.

Lemma rounded_SFleb (out : spec_float) (z c : Z) (out' : spec_float) (z' c' : Z) :
  rounded out z c -> rounded out' z' c' ->
  inject_Z z * p2 c <= inject_Z z' * p2 c' ->
  SFleb out out' = true.
Proof.
  intros [(Hz & ->) | [(m & e1 & -> & Hv & He & V) | (-> & Hv)]]
         [(Hz' & ->) | [(m' & e1' & -> & Hv' & He' & V') | (-> & Hv')]] Hle;
    try reflexivity.
  - exfalso. subst z'. rewrite <- Hv in Hle. pose proof (valF_pos m e1) as Hp.
    unfold valF in Hp. change (inject_Z 0) with 0 in Hle. lra.
  - apply SFleb_of_val; [exact V | exact V' |]. unfold valF. rewrite Hv, Hv'. exact Hle.
  - exfalso. subst z'. pose proof (p2_pos 1024) as Hp.
    change (inject_Z 0) with 0 in Hle. lra.
  - exfalso. apply bounded_spec in V' as (_ & Hm' & _).
    pose proof (valF_lt m' e1' 53 ltac:(lia) Hm') as H2. unfold valF in H2.
    pose proof (p2_le (53 + e1') 1024 ltac:(lia)) as H3. lra.
Qed.

Lemma rounded_valid (out : spec_float) (z c : Z) :
  rounded out z c -> valid_binary out = true.
Proof.
  intros [(_ & ->) | [(m & e1 & -> & _ & _ & V) | (-> & _)]]; [reflexivity | exact V | reflexivity].
Qed.

Lemma rounded_nn (out : spec_float) (z c : Z) : rounded out z c -> nn out = true.
Proof.
  intros [(_ & ->) | [(m & e1 & -> & _) | (-> & _)]]; reflexivity.
Qed.

Lemma rounds_to_mono (x x' : Q) (out out' : spec_float) :
  rounds_to x out -> rounds_to x' out' -> x <= x' -> SFleb out out' = true.
Proof.
  intros (q & e & l & X & Hq & HX & Hn & Hx & ->)
         (q' & e' & l' & X' & Hq' & HX' & Hn' & Hx' & ->) Hle.
  destruct (binary_round_aux_sem q e l X Hq HX Hn) as (z & Hz & Hzb & Hnorm & Hr).
  destruct (binary_round_aux_sem q' e' l' X' Hq' HX' Hn') as (z' & Hz' & Hzb' & Hnorm' & Hr').
  eapply rounded_SFleb; [exact Hr | exact Hr' |].
  apply (rounded_values_mono q e l X q' e' l' X'); try assumption.
  rewrite Hx, Hx'. exact Hle.
Qed.

Lemma rounds_to_valid (x : Q) (out : spec_float) :
  rounds_to x out -> valid_binary out = true.
Proof.
  intros (q & e & l & X & Hq & HX & Hn & Hx & ->).
  destruct (binary_round_aux_sem q e l X Hq HX Hn) as (z & _ & _ & _ & Hr).
  exact (rounded_valid _ _ _ Hr).
Qed.

Lemma rounds_to_nn (x : Q) (out : spec_float) : rounds_to x out -> nn out = true.
Proof.
  intros (q & e & l & X & Hq & HX & Hn & Hx & ->).
  destruct (binary_round_aux_sem q e l X Hq HX Hn) as (z & _ & _ & _ & Hr).
  exact (rounded_nn _ _ _ Hr).
Qed.

(** ** Multiplication *)

(** The product of two finite positive floats is the rounding of the exact
    product. *)
Lemma SFmul_rounds (ma : positive) (ea : Z) (mc : positive) (ec : Z) :
  bounded prec emax ma ea = true -> bounded prec emax mc ec = true ->
  rounds_to (valF ma ea * valF mc ec)
            (SF64mul (S754_finite false ma ea) (S754_finite false mc ec)).
Proof.
  intros Ba Bc.
  apply bounded_spec in Ba as (Hea & Hma & Hna).
  apply bounded_spec in Bc as (Hec & Hmc & Hnc).
  exists (Zpos (ma * mc)), (ea + ec)%Z, loc_Exact, (inject_Z (Zpos (ma * mc))).
  split; [lia |]. split; [cbn; reflexivity |]. split.
  - unfold fexp64. destruct (Z_le_gt_dec (ea + ec) (-1074)) as [H | H]; [lia |].
    assert (Hbig : (2 ^ 52 <= Zpos (ma * mc))%Z).
    { rewrite Pos2Z.inj_mul. destruct (Z_le_gt_dec ea (-1074)) as [H' | H'].
      - assert (Hc : (2 ^ 52 <= Zpos mc)%Z) by (apply Hnc; lia). nia.
      - assert (Hc : (2 ^ 52 <= Zpos ma)%Z) by (apply Hna; lia). nia. }
    pose proof (Zdigits2_bounds (Zpos (ma * mc)) ltac:(lia)) as [_ Hhi].
    pose proof (Zdigits2_nonneg (Zpos (ma * mc))) as Hd.
    assert (Hlt : (2 ^ 52 < 2 ^ Zdigits2 (Zpos (ma * mc)))%Z) by lia.
    apply Z.pow_lt_mono_r_iff in Hlt; lia.
  - split; [| reflexivity]. unfold valF.
    rewrite Pos2Z.inj_mul, inject_Z_mult, p2_add. ring.
Qed.

(** ** Division *)

Lemma new_location_eq (m2 r : Z) :
  new_location m2 r =
  if Z.even m2
  then (if Z.eqb r 0 then loc_Exact else loc_Inexact (Z.compare (2 * r) m2))
  else (if Z.eqb r 0 then loc_Exact
        else loc_Inexact match Z.compare (2 * r + 1) m2 with
                         | Lt => Lt | Eq => Lt | Gt => Gt
                         end).
Proof.
  unfold new_location. change (IntDef.Z.even m2) with (Z.even m2).
  destruct (Z.even m2); reflexivity.
Qed.

Lemma new_location_inb (m2 q r : Z) :
  (0 < m2)%Z -> (0 <= r < m2)%Z ->
  inb q (new_location m2 r) (inject_Z q + inject_Z r / inject_Z m2).
Proof.
  intros Hm Hr.
  pose proof (inject_Z_pos m2 Hm) as HM.
  assert (HM0 : ~ inject_Z m2 == 0) by (intros E; lra).
  rewrite new_location_eq.
  destruct r as [| p | p]; [| | lia].
  - assert (E : inject_Z q + inject_Z 0 / inject_Z m2 == inject_Z q).
    { change (inject_Z 0) with 0. field. exact HM0. }
    destruct (Z.even m2); cbn [inb]; exact E.
  - change (Z.eqb (Zpos p) 0) with false. cbv iota.
    assert (Hne : Zpos p <> 0%Z) by lia.
    set (r := Zpos p) in *.
    set (R := inject_Z r / inject_Z m2).
    assert (HR0 : 0 < R).
    { unfold R. apply Qlt_shift_div_l; [exact HM |].
      pose proof (inject_Z_pos r ltac:(lia)). lra. }
    assert (HRlt : (2 * r < m2)%Z -> R < 1 # 2).
    { intros H. unfold R. apply Qlt_shift_div_r; [exact HM |].
      rewrite Zlt_Qlt, inject_Z_mult in H. change (inject_Z 2) with 2 in H. lra. }
    assert (HReq : (2 * r = m2)%Z -> R == 1 # 2).
    { intros H. unfold R. rewrite <- H, inject_Z_mult. change (inject_Z 2) with 2.
      field. pose proof (inject_Z_pos r ltac:(lia)). lra. }
    assert (HRgt : (m2 < 2 * r)%Z -> (1 # 2) < R).
    { intros H. unfold R. apply Qlt_shift_div_l; [exact HM |].
      rewrite Zlt_Qlt, inject_Z_mult in H. change (inject_Z 2) with 2 in H. lra. }
    assert (HR1 : R < 1).
    { unfold R. apply Qlt_shift_div_r; [exact HM |].
      assert (H : (r < m2)%Z) by lia. rewrite Zlt_Qlt in H. lra. }
    destruct (Z.even m2) eqn:Hev.
    + destruct (Z.compare_spec (2 * r) m2) as [H | H | H]; cbn [inb].
      * specialize (HReq H). lra.
      * specialize (HRlt H). lra.
      * specialize (HRgt H). lra.
    + destruct (Z.compare_spec (2 * r + 1) m2) as [H | H | H]; cbn [inb].
      * specialize (HRlt ltac:(lia)). lra.
      * specialize (HRlt ltac:(lia)). lra.
      * assert (H2 : (2 * r <> m2)%Z).
        { intros E. rewrite <- E, Z.even_mul in Hev. discriminate Hev. }
        specialize (HRgt ltac:(lia)). lra.
Qed.

(** The quotient of two finite positive floats is the rounding of the exact
    quotient. *)
Lemma SFdiv_rounds (m1 : positive) (e1 : Z) (m2 : positive) (e2 : Z) :
  rounds_to (valF m1 e1 / valF m2 e2)
            (SF64div (S754_finite false m1 e1) (S754_finite false m2 e2)).
Proof.
  unfold SF64div. cbn [SFdiv xorb]. unfold SFdiv_core_binary. rewrite fexp64_spec.
  pose proof (digits_bounds m1) as [Hd1lo Hd1hi].
  pose proof (digits_bounds m2) as [Hd2lo Hd2hi].
  cbn [Zdigits2].
  set (d1 := Zpos (digits2_pos m1)) in *. set (d2 := Zpos (digits2_pos m2)) in *.
  assert (Hd1 : (0 < d1)%Z) by (unfold d1; lia).
  assert (Hd2 : (0 < d2)%Z) by (unfold d2; lia).
  set (e' := Z.min (fexp64 (d1 + e1 - (d2 + e2))) (e1 - e2)).
  set (s := (e1 - e2 - e')%Z).
  assert (Hs : (0 <= s)%Z) by (unfold s, e'; lia).
  set (m' := match s with Z0 => Zpos m1 | Zpos _ => Z.shiftl (Zpos m1) s | Zneg _ => 0%Z end).
  assert (Hm' : m' = (Zpos m1 * 2 ^ s)%Z).
  { unfold m'. destruct s as [| p | p] eqn:E; [lia | | lia].
    rewrite Z.shiftl_mul_pow2 by lia. reflexivity. }
  destruct (Z.div_eucl m' (Zpos m2)) as [q r] eqn:Ediv.
  pose proof (Z_div_mod m' (Zpos m2) ltac:(lia)) as Hdm. rewrite Ediv in Hdm.
  destruct Hdm as [Heq Hr].
  assert (Hps : (0 < 2 ^ s)%Z) by (apply Z.pow_pos_nonneg; lia).
  assert (Hq : (0 <= q)%Z) by nia.
  exists q, e', (new_location (Zpos m2) r), (inject_Z q + inject_Z r / inject_Z (Zpos m2)).
  split; [exact Hq |]. split; [apply new_location_inb; lia |]. split.
  - destruct (Z_le_gt_dec e' (-1074)) as [H | H]; [unfold fexp64; lia |].
    assert (Hs' : (53 + d2 - d1 <= s)%Z) by (unfold s, e', fexp64 in *; lia).
    assert (Hbig : (2 ^ 52 * 2 ^ d2 <= m')%Z).
    { rewrite Hm', <- Z.pow_add_r by lia.
      apply Z.le_trans with (2 ^ (d1 - 1) * 2 ^ s)%Z; [| nia].
      rewrite <- Z.pow_add_r by lia. apply Z.pow_le_mono_r; lia. }
    assert (Hq52 : (2 ^ 52 <= q)%Z) by nia.
    pose proof (Zdigits2_bounds q ltac:(lia)) as [_ Hhi].
    pose proof (Zdigits2_nonneg q) as Hd.
    assert (Hlt : (2 ^ 52 < 2 ^ Zdigits2 q)%Z) by lia.
    apply Z.pow_lt_mono_r_iff in Hlt; [| lia | lia].
    unfold fexp64. lia.
  - split; [| reflexivity].
    pose proof (inject_Z_pos (Zpos m2) ltac:(lia)) as HM2.
    pose proof (p2_pos e2) as Hp2. pose proof (p2_pos e') as Hpe.
    assert (E1 : inject_Z m' == inject_Z (Zpos m2) * inject_Z q + inject_Z r).
    { rewrite Heq, inject_Z_plus, inject_Z_mult. reflexivity. }
    assert (E2 : inject_Z m' == inject_Z (Zpos m1) * p2 s).
    { rewrite Hm', inject_Z_mult, p2_Z by lia. reflexivity. }
    assert (E3 : p2 s * p2 e' * p2 e2 == p2 e1).
    { rewrite <- !p2_add. replace (s + e' + e2)%Z with e1 by (unfold s; lia). reflexivity. }
    transitivity (inject_Z m' / inject_Z (Zpos m2) * p2 e').
    { rewrite E1. field. intros E; lra. }
    rewrite E2. unfold valF. rewrite <- E3. field. split; intros E; lra.
Qed.

(** ** Subtraction of a smaller value *)

Lemma iter_xO (m d : positive) : Zpos (Pos.iter xO m d) = (Zpos m * 2 ^ Zpos d)%Z.
Proof.
  induction d as [| d IH] using Pos.peano_ind.
  - cbn. lia.
  - rewrite Pos.iter_succ, Pos2Z.inj_xO, IH, Pos2Z.inj_succ, Z.pow_succ_r by lia. lia.
Qed.

Lemma iter_xO_digits (m d : positive) :
  Zpos (digits2_pos (Pos.iter xO m d)) = (Zpos (digits2_pos m) + Zpos d)%Z.
Proof.
  induction d as [| d IH] using Pos.peano_ind.
  - cbn. lia.
  - rewrite Pos.iter_succ. cbn [digits2_pos]. rewrite Pos2Z.inj_succ, IH. lia.
Qed.

Lemma shl_align_fst (m : positive) (e ez : Z) :
  (ez <= e)%Z -> Zpos (fst (shl_align m e ez)) = (Zpos m * 2 ^ (e - ez))%Z.
Proof.
  intros H. unfold shl_align. destruct (ez - e)%Z as [| p | p] eqn:E; try lia.
  - cbn [fst]. replace (e - ez)%Z with 0%Z by lia. lia.
  - cbn [fst]. rewrite iter_xO. f_equal. f_equal. lia.
Qed.

Lemma binary_round_rounds (m : positive) (e : Z) :
  rounds_to (valF m e) (binary_round prec emax false m e).
Proof.
  unfold binary_round. rewrite fexp64_spec.
  set (c := fexp64 (Zpos (digits2_pos m) + e)).
  unfold shl_align. destruct (c - e)%Z as [| p | p] eqn:E.
  - exists (Zpos m), e, loc_Exact, (inject_Z (Zpos m)).
    split; [lia |]. split; [cbn; reflexivity |]. split; [cbn [Zdigits2]; fold c; lia |].
    split; reflexivity.
  - exists (Zpos m), e, loc_Exact, (inject_Z (Zpos m)).
    split; [lia |]. split; [cbn; reflexivity |]. split; [cbn [Zdigits2]; fold c; lia |].
    split; reflexivity.
  - exists (Zpos (Pos.iter xO m p)), c, loc_Exact, (inject_Z (Zpos (Pos.iter xO m p))).
    split; [lia |]. split; [cbn; reflexivity |]. split.
    + cbn [Zdigits2]. rewrite iter_xO_digits.
      replace (Zpos (digits2_pos m) + Zpos p + c)%Z with (Zpos (digits2_pos m) + e)%Z by lia.
      fold c. lia.
    + split; [| reflexivity]. unfold valF. rewrite iter_xO, inject_Z_mult, p2_Z by lia.
      rewrite <- Qmult_assoc, <- p2_add. replace (Zpos p + c)%Z with e by lia. reflexivity.
Qed.

(** Subtracting a finite positive float from one that is not smaller gives
    a float that is not negative. *)
Lemma SFsub_nn (mb : positive) (eb : Z) (ma : positive) (ea : Z) :
  valF ma ea <= valF mb eb ->
  nn (SF64sub (S754_finite false mb eb) (S754_finite false ma ea)) = true.
Proof.
  intros Hle. unfold SF64sub. cbn [SFsub cond_Zopp].
  set (ez := Z.min eb ea).
  rewrite !shl_align_fst by (unfold ez; lia).
  assert (HD : (0 <= Zpos mb * 2 ^ (eb - ez) - Zpos ma * 2 ^ (ea - ez))%Z).
  { assert (H : (Zpos ma * 2 ^ (ea - ez) <= Zpos mb * 2 ^ (eb - ez))%Z); [| lia].
    rewrite Zle_Qle, !inject_Z_mult, !p2_Z by (unfold ez; lia).
    pose proof (p2_pos ez) as Hp.
    apply Qmult_le_r with (z := p2 ez); [exact Hp |].
    rewrite <- !Qmult_assoc, <- !p2_add.
    replace (ea - ez + ez)%Z with ea by lia. replace (eb - ez + ez)%Z with eb by lia.
    exact Hle. }
  destruct (Zpos mb * 2 ^ (eb - ez) - Zpos ma * 2 ^ (ea - ez))%Z as [| d | d]; [reflexivity | | lia].
  cbn [binary_normalize]. exact (rounds_to_nn _ _ (binary_round_rounds d ez)).
Qed.

(** ** Order on non-negative floats *)

Lemma SFleb_zero_nn (x : spec_float) : nn x = true -> SFleb (S754_zero false) x = true.
Proof. destruct x as [[] | [] | | [] m e]; cbn; congruence. Qed.

Lemma SFleb_nn_inf (x : spec_float) : nn x = true -> SFleb x (S754_infinity false) = true.
Proof. destruct x as [[] | [] | | [] m e]; cbn; congruence. Qed.

Lemma SFltb_zero_pos (x : spec_float) : SFltb (S754_zero false) x = true -> pos_sf x = true.
Proof. destruct x as [[] | [] | | [] m e]; cbn; congruence. Qed.

Lemma SFleb_pos (x y : spec_float) :
  pos_sf x = true -> SFleb x y = true -> pos_sf y = true.
Proof.
  destruct x as [[] | [] | | [] mx ex]; cbn; try congruence;
    destruct y as [[] | [] | | [] my ey]; cbn; congruence.
Qed.

Lemma SF64mul_nn (a : spec_float) (mc : positive) (ec : Z) :
  valid_binary a = true -> bounded prec emax mc ec = true -> nn a = true ->
  nn (SF64mul a (S754_finite false mc ec)) = true.
Proof.
  intros Va Vc Na.
  destruct a as [[] | [] | | [] ma ea]; cbn in Na; try discriminate Na; try reflexivity.
  exact (rounds_to_nn _ _ (SFmul_rounds ma ea mc ec Va Vc)).
Qed.

(** Multiplying by a finite positive float keeps the order. *)
Lemma SF64mul_mono (a b : spec_float) (mc : positive) (ec : Z) :
  valid_binary a = true -> valid_binary b = true -> bounded prec emax mc ec = true ->
  nn a = true -> nn b = true -> SFleb a b = true ->
  SFleb (SF64mul a (S754_finite false mc ec)) (SF64mul b (S754_finite false mc ec)) = true.
Proof.
  intros Va Vb Vc Na Nb Hle.
  pose proof (SF64mul_nn b mc ec Vb Vc Nb) as Nbc.
  pose proof (SF64mul_nn a mc ec Va Vc Na) as Nac.
  destruct a as [[] | [] | | [] ma ea]; cbn in Na; try discriminate Na.
  - apply SFleb_zero_nn. exact Nbc.
  - destruct b as [[] | [] | | [] mb eb]; cbn in Nb; try discriminate Nb;
      cbn in Hle; try discriminate Hle. reflexivity.
  - destruct b as [[] | [] | | [] mb eb]; cbn in Nb; try discriminate Nb.
    + cbn in Hle. discriminate Hle.
    + apply SFleb_nn_inf. exact Nac.
    + apply (rounds_to_mono (valF ma ea * valF mc ec) (valF mb eb * valF mc ec)).
      * apply SFmul_rounds; assumption.
      * apply SFmul_rounds; assumption.
      * apply Qmult_le_compat_r; [| apply Qlt_le_weak, valF_pos].
        apply val_of_SFleb; assumption.
Qed.

Lemma SF64div_nn (mk : positive) (ek : Z) (x : spec_float) :
  pos_sf x = true -> nn (SF64div (S754_finite false mk ek) x) = true.
Proof.
  intros Hx. destruct x as [[] | [] | | [] mx ex]; cbn in Hx; try discriminate Hx.
  - reflexivity.
  - exact (rounds_to_nn _ _ (SFdiv_rounds mk ek mx ex)).
Qed.

(** Dividing a finite positive float by a larger positive float gives a
    smaller (or the same) quotient. *)
Lemma SF64div_antimono (mk : positive) (ek : Z) (x y : spec_float) :
  valid_binary x = true -> valid_binary y = true ->
  pos_sf x = true -> SFleb x y = true ->
  SFleb (SF64div (S754_finite false mk ek) y) (SF64div (S754_finite false mk ek) x) = true.
Proof.
  intros Vx Vy Px Hle.
  pose proof (SFleb_pos x y Px Hle) as Py.
  pose proof (SF64div_nn mk ek x Px) as Nx.
  destruct y as [[] | [] | | [] my ey]; cbn in Py; try discriminate Py.
  - apply SFleb_zero_nn. exact Nx.
  - destruct x as [[] | [] | | [] mx ex]; cbn in Px; try discriminate Px.
    + cbn in Hle. discriminate Hle.
    + apply (rounds_to_mono (valF mk ek / valF my ey) (valF mk ek / valF mx ex)).
      * apply SFdiv_rounds.
      * apply SFdiv_rounds.
      * pose proof (val_of_SFleb mx ex my ey Vx Vy Hle) as Hv.
        pose proof (valF_pos mx ex) as Hpx. pose proof (valF_pos my ey) as Hpy.
        pose proof (valF_pos mk ek) as Hpk.
        unfold Qdiv. apply Qmult_le_l; [exact Hpk |].
        apply Qle_shift_inv_l; [exact Hpx |].
        assert (E : / valF my ey * valF mx ex == valF mx ex / valF my ey) by (field; lra).
        rewrite E. apply Qle_shift_div_r; [exact Hpy | lra].
Qed.

Lemma SF64sub_nn (a b : spec_float) :
  valid_binary a = true -> valid_binary b = true ->
  nn a = true -> nn b = true ->
  SFltb a (S754_infinity false) = true -> SFleb a b = true ->
  nn (SF64sub b a) = true.
Proof.
  intros Va Vb Na Nb Hfin Hle.
  destruct a as [[] | [] | | [] ma ea]; cbn in Na; try discriminate Na;
    cbn in Hfin; try discriminate Hfin;
    destruct b as [[] | [] | | [] mb eb]; cbn in Nb; try discriminate Nb;
    try reflexivity.
  - cbn in Hle. discriminate Hle.
  - apply SFsub_nn. apply val_of_SFleb; assumption.
Qed.

(** ** A valid float rounds to itself *)

Lemma binary_round_aux_id (m : positive) (e : Z) :
  bounded prec emax m e = true ->
  binary_round_aux prec emax false (Zpos m) e loc_Exact = S754_finite false m e.
Proof.
  intros B. pose proof (bounded_spec m e B) as (He & Hm & Hn).
  assert (Hcan : fexp64 (Zpos (digits2_pos m) + e) = e).
  { unfold bounded, canonical_mantissa in B. rewrite fexp64_spec in B.
    apply andb_true_iff in B as [B _]. apply Z.eqb_eq in B. exact B. }
  assert (E1 : shr_fexp prec emax (Zpos m) e loc_Exact =
               (shr_record_of_loc (Zpos m) loc_Exact, e)).
  { unfold shr_fexp. rewrite fexp64_spec. cbn [Zdigits2]. rewrite Hcan, Z.sub_diag.
    reflexivity. }
  unfold binary_round_aux. rewrite E1.
  cbn [shr_record_of_loc shr_m loc_of_shr_record round_nearest_even].
  rewrite E1. cbn [shr_record_of_loc shr_m].
  destruct (e <=? emax - prec)%Z eqn:Hfit; [reflexivity |].
  apply Z.leb_gt in Hfit. change (emax - prec)%Z with 971%Z in Hfit. lia.
Qed.

Lemma rounds_to_self (m : positive) (e : Z) :
  bounded prec emax m e = true -> rounds_to (valF m e) (S754_finite false m e).
Proof.
  intros B. exists (Zpos m), e, loc_Exact, (inject_Z (Zpos m)).
  split; [lia |]. split; [cbn; reflexivity |]. split.
  - unfold bounded, canonical_mantissa in B. rewrite fexp64_spec in B.
    apply andb_true_iff in B as [B _]. apply Z.eqb_eq in B. cbn [Zdigits2]. lia.
  - split; [reflexivity |]. symmetry. apply binary_round_aux_id. exact B.
Qed.

Lemma rounds_to_ext (x x' : Q) (out : spec_float) :
  x == x' -> rounds_to x out -> rounds_to x' out.
Proof.
  intros E (q & e & l & X & Hq & HX & Hn & Hx & Hout).
  exists q, e, l, X. split; [exact Hq |]. split; [exact HX |]. split; [exact Hn |].
  split; [rewrite <- E; exact Hx | exact Hout].
Qed.

(** What rounds a value at least [valF m e] is at least that float. *)
Lemma rounds_to_ge (m : positive) (e : Z) (x : Q) (out : spec_float) :
  bounded prec emax m e = true -> valF m e <= x -> rounds_to x out ->
  SFleb (S754_finite false m e) out = true.
Proof.
  intros B Hle Hr.
  exact (rounds_to_mono _ _ _ _ (rounds_to_self m e B) Hr Hle).
Qed.

(** What rounds a value at most [valF m e] is at most that float. *)
Lemma rounds_to_le (m : positive) (e : Z) (x : Q) (out : spec_float) :
  bounded prec emax m e = true -> x <= valF m e -> rounds_to x out ->
  SFleb out (S754_finite false m e) = true.
Proof.
  intros B Hle Hr.
  exact (rounds_to_mono _ _ _ _ Hr (rounds_to_self m e B) Hle).
Qed.

Lemma SFleb_refl_pos (a : spec_float) :
  valid_binary a = true -> pos_sf a = true -> SFleb a a = true.
Proof.
  intros Va Pa. destruct a as [[] | [] | | [] ma ea]; cbn in Pa; try discriminate Pa.
  - reflexivity.
  - apply SFleb_of_val; try assumption. apply Qle_refl.
Qed.

Lemma pos_sf_nn (a : spec_float) : pos_sf a = true -> nn a = true.
Proof. destruct a as [[] | [] | | [] ma ea]; cbn; congruence. Qed.

Lemma pos_sf_lt0 (a : spec_float) : pos_sf a = true -> SFltb (S754_zero false) a = true.
Proof. destruct a as [[] | [] | | [] ma ea]; cbn; congruence. Qed.

(** ** Addition *)

Lemma SFadd_rounds (ma : positive) (ea : Z) (mb : positive) (eb : Z) :
  rounds_to (valF ma ea + valF mb eb)
            (SF64add (S754_finite false ma ea) (S754_finite false mb eb)).
Proof.
  unfold SF64add. cbn [SFadd cond_Zopp].
  set (ez := Z.min ea eb).
  rewrite !shl_align_fst by (unfold ez; lia).
  assert (Ha : (0 < Zpos ma * 2 ^ (ea - ez))%Z).
  { apply Z.mul_pos_pos; [lia | apply Z.pow_pos_nonneg; unfold ez; lia]. }
  assert (Hb : (0 < Zpos mb * 2 ^ (eb - ez))%Z).
  { apply Z.mul_pos_pos; [lia | apply Z.pow_pos_nonneg; unfold ez; lia]. }
  destruct (Zpos ma * 2 ^ (ea - ez) + Zpos mb * 2 ^ (eb - ez))%Z as [| d | d] eqn:ED;
    [lia | | lia].
  cbn [binary_normalize].
  apply (rounds_to_ext (valF d ez)); [| apply binary_round_rounds].
  unfold valF. rewrite <- ED, inject_Z_plus, !inject_Z_mult, !p2_Z by (unfold ez; lia).
  rewrite Qmult_plus_distr_l, <- !Qmult_assoc, <- !p2_add.
  replace (ea - ez + ez)%Z with ea by lia. replace (eb - ez + ez)%Z with eb by lia.
  reflexivity.
Qed.

Lemma SF64add_nn (x y : spec_float) :
  nn x = true -> nn y = true -> nn (SF64add x y) = true.
Proof.
  intros Nx Ny.
  destruct x as [[] | [] | | [] mx ex]; cbn in Nx; try discriminate Nx;
    destruct y as [[] | [] | | [] my ey]; cbn in Ny; try discriminate Ny;
    try reflexivity.
  exact (rounds_to_nn _ _ (SFadd_rounds mx ex my ey)).
Qed.

(** A sum with a non-negative float is at least what bounds the other
    term from below. *)
Lemma SF64add_ge_l (mc : positive) (ec : Z) (x y : spec_float) :
  bounded prec emax mc ec = true ->
  valid_binary x = true -> valid_binary y = true -> nn y = true ->
  SFleb (S754_finite false mc ec) x = true ->
  SFleb (S754_finite false mc ec) (SF64add x y) = true.
Proof.
  intros Vc Vx Vy Ny Hle.
  destruct x as [[] | [] | | [] mx ex]; cbn in Hle; try discriminate Hle.
  - destruct y as [[] | [] | | [] my ey]; cbn in Ny; try discriminate Ny; reflexivity.
  - destruct y as [[] | [] | | [] my ey]; cbn in Ny; try discriminate Ny.
    + apply SFleb_of_val; try assumption. apply val_of_SFleb; assumption.
    + reflexivity.
    + apply (rounds_to_ge mc ec (valF mx ex + valF my ey)); [exact Vc | | apply SFadd_rounds].
      pose proof (val_of_SFleb mc ec mx ex Vc Vx Hle) as H.
      pose proof (valF_pos my ey). lra.
Qed.

Lemma SF64add_ge_r (mc : positive) (ec : Z) (x y : spec_float) :
  bounded prec emax mc ec = true ->
  valid_binary x = true -> valid_binary y = true -> nn x = true ->
  SFleb (S754_finite false mc ec) y = true ->
  SFleb (S754_finite false mc ec) (SF64add x y) = true.
Proof.
  intros Vc Vx Vy Nx Hle.
  destruct y as [[] | [] | | [] my ey]; cbn in Hle; try discriminate Hle.
  - destruct x as [[] | [] | | [] mx ex]; cbn in Nx; try discriminate Nx; reflexivity.
  - destruct x as [[] | [] | | [] mx ex]; cbn in Nx; try discriminate Nx.
    + apply SFleb_of_val; try assumption. apply val_of_SFleb; assumption.
    + reflexivity.
    + apply (rounds_to_ge mc ec (valF mx ex + valF my ey)); [exact Vc | | apply SFadd_rounds].
      pose proof (val_of_SFleb mc ec my ey Vc Vy Hle) as H.
      pose proof (valF_pos mx ex). lra.
Qed.

Lemma SF64add_pos_l (x y : spec_float) :
  valid_binary x = true -> valid_binary y = true ->
  pos_sf x = true -> nn y = true -> pos_sf (SF64add x y) = true.
Proof.
  intros Vx Vy Px Ny.
  destruct x as [[] | [] | | [] mx ex] eqn:Ex; cbn in Px; try discriminate Px.
  - destruct y as [[] | [] | | [] my ey]; cbn in Ny; try discriminate Ny; reflexivity.
  - apply (SFleb_pos (S754_finite false mx ex)); [reflexivity |].
    apply SF64add_ge_l; try assumption. apply SFleb_of_val; try assumption. apply Qle_refl.
Qed.

Lemma SF64add_pos_r (x y : spec_float) :
  valid_binary x = true -> valid_binary y = true ->
  nn x = true -> pos_sf y = true -> pos_sf (SF64add x y) = true.
Proof.
  intros Vx Vy Nx Py.
  destruct y as [[] | [] | | [] my ey] eqn:Ey; cbn in Py; try discriminate Py.
  - destruct x as [[] | [] | | [] mx ex]; cbn in Nx; try discriminate Nx; reflexivity.
  - apply (SFleb_pos (S754_finite false my ey)); [reflexivity |].
    apply SF64add_ge_r; try assumption. apply SFleb_of_val; try assumption. apply Qle_refl.
Qed.

(** ** Products of positive floats *)

Lemma SF64mul_pos_nn (a c : spec_float) :
  valid_binary a = true -> valid_binary c = true ->
  pos_sf a = true -> pos_sf c = true -> nn (SF64mul a c) = true.
Proof.
  intros Va Vc Pa Pc.
  destruct a as [[] | [] | | [] ma ea]; cbn in Pa; try discriminate Pa;
    destruct c as [[] | [] | | [] mc ec]; cbn in Pc; try discriminate Pc;
    try reflexivity.
  exact (rounds_to_nn _ _ (SFmul_rounds ma ea mc ec Va Vc)).
Qed.

(** The product of positive floats grows with both factors. *)
Lemma SF64mul_mono2 (a b c d : spec_float) :
  valid_binary a = true -> valid_binary b = true ->
  valid_binary c = true -> valid_binary d = true ->
  pos_sf a = true -> pos_sf c = true ->
  SFleb a b = true -> SFleb c d = true ->
  SFleb (SF64mul a c) (SF64mul b d) = true.
Proof.
  intros Va Vb Vc Vd Pa Pc Hab Hcd.
  pose proof (SFleb_pos a b Pa Hab) as Pb. pose proof (SFleb_pos c d Pc Hcd) as Pd.
  pose proof (SF64mul_pos_nn a c Va Vc Pa Pc) as Nac.
  destruct b as [[] | [] | | [] mb eb]; cbn in Pb; try discriminate Pb.
  - destruct d as [[] | [] | | [] md ed]; cbn in Pd; try discriminate Pd;
      apply SFleb_nn_inf; exact Nac.
  - destruct d as [[] | [] | | [] md ed]; cbn in Pd; try discriminate Pd.
    + apply SFleb_nn_inf; exact Nac.
    + destruct a as [[] | [] | | [] ma ea]; cbn in Pa; try discriminate Pa;
        [cbn in Hab; discriminate Hab |].
      destruct c as [[] | [] | | [] mc ec]; cbn in Pc; try discriminate Pc;
        [cbn in Hcd; discriminate Hcd |].
      apply (rounds_to_mono (valF ma ea * valF mc ec) (valF mb eb * valF md ed)).
      * apply SFmul_rounds; assumption.
      * apply SFmul_rounds; assumption.
      * pose proof (val_of_SFleb ma ea mb eb Va Vb Hab) as H1.
        pose proof (val_of_SFleb mc ec md ed Vc Vd Hcd) as H2.
        pose proof (valF_pos ma ea) as P1. pose proof (valF_pos mc ec) as P2.
        apply Qle_trans with (valF mb eb * valF mc ec).
        -- apply Qmult_le_compat_r; lra.
        -- rewrite !(Qmult_comm (valF mb eb)). apply Qmult_le_compat_r; lra.
Qed.

(** ** Ints as floats *)

(** Below 2^1023 nothing rounds to infinity. *)
Lemma rounds_to_finite (x : Q) (out : spec_float) :
  rounds_to x out -> x <= p2 1023 -> SFltb out (S754_infinity false) = true.
Proof.
  intros Hr Hle.
  assert (B : bounded prec emax (2 ^ 52) 971 = true) by reflexivity.
  assert (Hv : valF (2 ^ 52) 971 == p2 1023).
  { unfold valF. change (inject_Z (Zpos (2 ^ 52))) with (inject_Z (2 ^ 52)).
    rewrite p2_Z by lia. rewrite <- p2_add. reflexivity. }
  rewrite <- Hv in Hle.
  pose proof (rounds_to_le _ _ _ _ B Hle Hr) as H.
  destruct out as [[] | [] | | [] m e]; cbn in H |- *; congruence.
Qed.

(** The quotient of two positive ints, rounded once. *)
Lemma int_quotient_rounds (a b : positive) :
  rounds_to (inject_Z (Zpos a) / inject_Z (Zpos b))
            (SF64div (S754_finite false a 0) (S754_finite false b 0)).
Proof.
  apply (rounds_to_ext (valF a 0 / valF b 0)); [| apply SFdiv_rounds].
  unfold valF. change (p2 0) with 1. rewrite !Qmult_1_r. reflexivity.
Qed.

(** A positive int, rounded once. *)
Lemma int_rounds (a : positive) :
  rounds_to (inject_Z (Zpos a)) (binary_normalize prec emax (Zpos a) 0 false).
Proof.
  cbn [binary_normalize].
  apply (rounds_to_ext (valF a 0)); [| apply binary_round_rounds].
  unfold valF. change (p2 0) with 1. rewrite Qmult_1_r. reflexivity.
Qed.

Lemma inject_Z_below_p2 (a : Z) (k : Z) :
  (0 <= k)%Z -> (a < 2 ^ k)%Z -> inject_Z a <= p2 k.
Proof.
  intros Hk H. rewrite <- p2_Z by lia. rewrite <- Zle_Qle. lia.
Qed.

(** ** The fuel cost difference *)

Section RoundedCosts.

Local Open Scope float_scope.

Lemma prim_finite_pos (c : float) :
  pos_sf (Prim2SF c) = true -> SFltb (Prim2SF c) (S754_infinity false) = true ->
  exists m e, Prim2SF c = S754_finite false m e /\ bounded prec emax m e = true.
Proof.
  intros Hp Hf. pose proof (FloatAxioms.Prim2SF_valid c) as V.
  destruct (Prim2SF c) as [[] | [] | | [] m e]; cbn in Hp; try discriminate Hp.
  - cbn in Hf. discriminate Hf.
  - exists m, e. split; [reflexivity | exact V].
Qed.

(** [g * L * p] grows with [g], for finite positive [L] and [p]. *)
Lemma cost_mono (L p gs gu : float) :
  (0 <? L) = true -> (L <? infinity) = true ->
  (0 <? p) = true -> (p <? infinity) = true ->
  nn (Prim2SF gs) = true -> nn (Prim2SF gu) = true ->
  SFleb (Prim2SF gs) (Prim2SF gu) = true ->
  SFleb (Prim2SF (gs * L * p)) (Prim2SF (gu * L * p)) = true /\
  nn (Prim2SF (gs * L * p)) = true /\ nn (Prim2SF (gu * L * p)) = true.
Proof.
  rewrite !FloatAxioms.ltb_spec.
  change (Prim2SF 0) with (S754_zero false). change (Prim2SF infinity) with (S754_infinity false).
  intros HL HLf Hp Hpf Ns Nu Hle.
  destruct (prim_finite_pos L (SFltb_zero_pos _ HL) HLf) as (mL & eL & EL & VL).
  destruct (prim_finite_pos p (SFltb_zero_pos _ Hp) Hpf) as (mp & ep & Ep & Vp).
  pose proof (FloatAxioms.Prim2SF_valid gs) as Vs.
  pose proof (FloatAxioms.Prim2SF_valid gu) as Vu.
  pose proof (FloatAxioms.Prim2SF_valid (gs * L)) as VsL.
  pose proof (FloatAxioms.Prim2SF_valid (gu * L)) as VuL.
  rewrite (FloatAxioms.mul_spec (gs * L) p) in *.
  rewrite (FloatAxioms.mul_spec (gu * L) p) in *.
  rewrite Ep in *.
  assert (NsL : nn (Prim2SF (gs * L)) = true).
  { rewrite FloatAxioms.mul_spec, EL. apply SF64mul_nn; assumption. }
  assert (NuL : nn (Prim2SF (gu * L)) = true).
  { rewrite FloatAxioms.mul_spec, EL. apply SF64mul_nn; assumption. }
  assert (HleL : SFleb (Prim2SF (gs * L)) (Prim2SF (gu * L)) = true).
  { rewrite (FloatAxioms.mul_spec gs L), (FloatAxioms.mul_spec gu L) in *. rewrite EL in *.
    apply SF64mul_mono; assumption. }
  split; [apply SF64mul_mono; assumption |].
  split; apply SF64mul_nn; assumption.
Qed.

(** The difference of lines 35-37: with [0 < mu <= ms], a positive price
    and a finite cost at [ms], the cost at [mu] minus the cost at [ms] is
    +0, positive or +infinity. *)
Lemma fuel_difference_nn (L ms mu p : float) :
  (0 <? L) = true -> (L <? infinity) = true ->
  (0 <? mu) = true -> (mu <=? ms) = true -> (0 <? p) = true ->
  (10000 / ms * L * p <? infinity) = true ->
  nn (Prim2SF (10000 / mu * L * p - 10000 / ms * L * p)) = true.
Proof.
  intros HL HLf Hmu Hle Hp Hfin.
  pose proof Hmu as Pmu. rewrite FloatAxioms.ltb_spec in Pmu. apply SFltb_zero_pos in Pmu.
  pose proof Hle as Hle'. rewrite FloatAxioms.leb_spec in Hle'.
  pose proof (SFleb_pos _ _ Pmu Hle') as Pms.
  pose proof Hp as Pp. rewrite FloatAxioms.ltb_spec in Pp. apply SFltb_zero_pos in Pp.
  destruct (prim_finite_pos 10000 eq_refl eq_refl) as (mk & ek & EK & _).
  assert (Ngs : nn (Prim2SF (10000 / ms)) = true).
  { rewrite FloatAxioms.div_spec, EK. apply SF64div_nn. exact Pms. }
  assert (Ngu : nn (Prim2SF (10000 / mu)) = true).
  { rewrite FloatAxioms.div_spec, EK. apply SF64div_nn. exact Pmu. }
  assert (Hg : SFleb (Prim2SF (10000 / ms)) (Prim2SF (10000 / mu)) = true).
  { rewrite !FloatAxioms.div_spec, EK.
    apply SF64div_antimono; try assumption; apply FloatAxioms.Prim2SF_valid. }
  assert (Hpf : (p <? infinity) = true).
  { rewrite FloatAxioms.ltb_spec. change (Prim2SF infinity) with (S754_infinity false).
    destruct (Prim2SF p) as [[] | [] | | [] mp ep] eqn:Ep; cbn in Pp; try discriminate Pp;
      [exfalso | reflexivity].
    assert (NsL : nn (Prim2SF (10000 / ms * L)) = true).
    { pose proof HL as PL. rewrite FloatAxioms.ltb_spec in PL. apply SFltb_zero_pos in PL.
      pose proof HLf as FL. rewrite FloatAxioms.ltb_spec in FL.
      destruct (prim_finite_pos L PL FL) as (mL & eL & EL & VL).
      rewrite FloatAxioms.mul_spec, EL. apply SF64mul_nn; try assumption.
      apply FloatAxioms.Prim2SF_valid. }
    rewrite FloatAxioms.ltb_spec, FloatAxioms.mul_spec, Ep in Hfin.
    destruct (Prim2SF (10000 / ms * L)) as [[] | [] | | [] m e]; cbn in NsL;
      try discriminate NsL; cbn in Hfin; discriminate Hfin. }
  destruct (cost_mono L p (10000 / ms) (10000 / mu) HL HLf Hp Hpf Ngs Ngu Hg)
    as (Hc & Ncs & Ncu).
  rewrite FloatAxioms.sub_spec.
  apply SF64sub_nn; try assumption; try apply FloatAxioms.Prim2SF_valid.
  change (S754_infinity false) with (Prim2SF infinity).
  rewrite <- FloatAxioms.ltb_spec. exact Hfin.
Qed.

(** ** Sums and products of the program's amounts *)

Lemma float_nn_le0 (x : float) : nn (Prim2SF x) = true -> (0 <=? x) = true.
Proof.
  intros H. rewrite FloatAxioms.leb_spec. change (Prim2SF 0) with (S754_zero false).
  now apply SFleb_zero_nn.
Qed.

Lemma float_pos_lt0 (x : float) : pos_sf (Prim2SF x) = true <-> (0 <? x) = true.
Proof.
  rewrite FloatAxioms.ltb_spec. change (Prim2SF 0) with (S754_zero false).
  split; [apply pos_sf_lt0 | apply SFltb_zero_pos].
Qed.

(** [x + y] is at least a finite positive [c] that [y] is at least, when
    [x] is not negative. *)
Lemma float_add_ge_r (c x y : float) :
  (0 <? c) = true -> (c <? infinity) = true ->
  nn (Prim2SF x) = true -> (c <=? y) = true -> (c <=? x + y) = true.
Proof.
  rewrite !FloatAxioms.ltb_spec, !FloatAxioms.leb_spec, FloatAxioms.add_spec.
  change (Prim2SF 0) with (S754_zero false).
  change (Prim2SF infinity) with (S754_infinity false).
  intros Hc Hcf Nx Hle.
  destruct (prim_finite_pos c (SFltb_zero_pos _ Hc) Hcf) as (mc & ec & Ec & Vc).
  rewrite Ec in *.
  apply SF64add_ge_r; try assumption; apply FloatAxioms.Prim2SF_valid.
Qed.

(** The sum of two non-negative amounts is not negative; it is positive
    exactly when one of them is. *)
Lemma float_add_nn (x y : float) :
  nn (Prim2SF x) = true -> nn (Prim2SF y) = true ->
  nn (Prim2SF (x + y)) = true /\
  (pos_sf (Prim2SF (x + y)) = true <->
   pos_sf (Prim2SF x) = true \/ pos_sf (Prim2SF y) = true).
Proof.
  intros Nx Ny. rewrite FloatAxioms.add_spec.
  pose proof (FloatAxioms.Prim2SF_valid x) as Vx.
  pose proof (FloatAxioms.Prim2SF_valid y) as Vy.
  split; [now apply SF64add_nn |]. split.
  - intros Hp.
    destruct (Prim2SF x) as [[] | [] | | [] mx ex]; cbn in Nx; try discriminate Nx;
      try (left; reflexivity).
    destruct (Prim2SF y) as [[] | [] | | [] my ey]; cbn in Ny; try discriminate Ny;
      try (right; reflexivity).
    cbn in Hp. discriminate Hp.
  - intros [Hp | Hp]; [now apply SF64add_pos_l | now apply SF64add_pos_r].
Qed.

(** A product of three amounts bounded from below by finite positive
    constants is bounded from below by the product of the constants. *)
Lemma float_mul3_ge (a b c x y z : float) :
  (0 <? a) = true -> (0 <? b) = true -> (0 <? c) = true ->
  (a <=? x) = true -> (b <=? y) = true -> (c <=? z) = true ->
  (0 <? a * b * c) = true ->
  (0 <? x * y * z) = true.
Proof.
  rewrite !FloatAxioms.ltb_spec, !FloatAxioms.leb_spec.
  change (Prim2SF 0) with (S754_zero false).
  intros Ha Hb Hc Hax Hby Hcz Habc.
  apply SFltb_zero_pos in Ha, Hb, Hc, Habc. apply pos_sf_lt0.
  apply (SFleb_pos (Prim2SF (a * b * c))); [exact Habc |].
  rewrite (FloatAxioms.mul_spec (a * b) c), (FloatAxioms.mul_spec (x * y) z).
  assert (Hab : pos_sf (Prim2SF (a * b)) = true).
  { assert (Nab : nn (Prim2SF (a * b)) = true).
    { rewrite FloatAxioms.mul_spec.
      apply SF64mul_pos_nn; try apply FloatAxioms.Prim2SF_valid; assumption. }
    destruct (Prim2SF (a * b)) as [[] | [] | | [] m e] eqn:E; cbn in Nab;
      try discriminate Nab; try reflexivity.
    rewrite (FloatAxioms.mul_spec (a * b) c), E in Habc.
    destruct (Prim2SF c) as [[] | [] | | [] mc ec]; cbn in Hc; try discriminate Hc;
      cbn in Habc; discriminate Habc. }
  apply SF64mul_mono2; try apply FloatAxioms.Prim2SF_valid; try assumption.
  rewrite (FloatAxioms.mul_spec a b), (FloatAxioms.mul_spec x y) in *.
  apply SF64mul_mono2; try apply FloatAxioms.Prim2SF_valid; assumption.
Qed.

(** A cost that is finite at a price is finite at every smaller positive
    price. *)
Lemma float_mul_finite (k p b : float) :
  (0 <? k) = true -> (0 <? p) = true -> (p <=? b) = true ->
  (k * b <? infinity) = true -> (k * p <? infinity) = true.
Proof.
  rewrite !FloatAxioms.ltb_spec, !FloatAxioms.leb_spec, !FloatAxioms.mul_spec.
  change (Prim2SF 0) with (S754_zero false).
  change (Prim2SF infinity) with (S754_infinity false).
  intros Hk Hp Hpb Hfin.
  apply SFltb_zero_pos in Hk, Hp.
  pose proof (FloatAxioms.Prim2SF_valid k) as Vk.
  pose proof (SF64mul_mono2 (Prim2SF k) (Prim2SF k) (Prim2SF p) (Prim2SF b) Vk Vk
                (FloatAxioms.Prim2SF_valid p) (FloatAxioms.Prim2SF_valid b) Hk Hp
                (SFleb_refl_pos _ Vk Hk) Hpb) as Hle.
  destruct (SF64mul (Prim2SF k) (Prim2SF p)) as [[] | [] | | [] m e];
    destruct (SF64mul (Prim2SF k) (Prim2SF b)) as [[] | [] | | [] m' e'];
    cbn in Hle, Hfin |- *; congruence.
Qed.

End RoundedCosts.

(** * The program in binary64: properties *)

Section Binary64.

Local Open Scope float_scope.

(** ** Comparisons with zero *)

Lemma float_pos_not_le0 (x : float) : (0 <? x) = true -> (x <=? 0) = false.
Proof.
  rewrite FloatAxioms.ltb_spec, FloatAxioms.leb_spec. change (Prim2SF 0) with (S754_zero false).
  destruct (Prim2SF x) as [s | s | | s m e]; try destruct s; cbn; congruence.
Qed.

(** What passes a guard [x <= 0] is not a zero, so dividing by it does not
    raise. *)
Lemma float_not_le0_not_zero (x : float) : (x <=? 0) = false -> (x =? 0) = false.
Proof.
  rewrite FloatAxioms.leb_spec, FloatAxioms.eqb_spec. change (Prim2SF 0) with (S754_zero false).
  destruct (Prim2SF x) as [s | s | | s m e]; try destruct s; cbn; congruence.
Qed.

Lemma float_pos_le (x y : float) :
  (0 <? x) = true -> (x <=? y) = true -> (0 <? y) = true.
Proof.
  rewrite !FloatAxioms.ltb_spec, FloatAxioms.leb_spec.
  change (Prim2SF 0) with (S754_zero false).
  destruct (Prim2SF x) as [[] | [] | | [] mx ex]; cbn; try congruence;
    destruct (Prim2SF y) as [[] | [] | | [] my ey]; cbn; congruence.
Qed.

Lemma truediv_not_zero (a b : float) : (b =? 0) = false -> B64.truediv a b = Ok (a / b).
Proof. intros Hb. unfold B64.truediv. now rewrite Hb. Qed.

(** Past its guard the fuel helper returns the rounded difference of the two
    rounded costs. *)
Lemma fuel_cost_past_guard_binary64 (ms mu p : float) :
  (ms <=? 0) = false -> (mu <=? 0) = false -> (p <=? 0) = false ->
  B64.calculate_extra_fuel_cost_10k ms mu p =
    Ok (10000 / mu * B64.LITRES_PER_GALLON * p - 10000 / ms * B64.LITRES_PER_GALLON * p).
Proof.
  intros Hs Hu Hp. unfold B64.calculate_extra_fuel_cost_10k.
  rewrite Hs, Hu, Hp. cbn [orb].
  rewrite (truediv_not_zero _ _ (float_not_le0_not_zero _ Hs)).
  rewrite (truediv_not_zero _ _ (float_not_le0_not_zero _ Hu)).
  reflexivity.
Qed.

(** ** The fuel formula *)

(** C1, as the code has it: with both fuel economies and the diesel price
    positive, the fuel helper returns, without raising, cost(mpg_under) -
    cost(mpg_std), where cost(mpg) = ((10000 / mpg) * LITRES_PER_GALLON) *
    price, LITRES_PER_GALLON is 4.54609, and each operation is rounded to
    binary64. *)
Theorem extra_fuel_cost_binary64 (ms mu p : float) :
  (0 <? ms) = true -> (0 <? mu) = true -> (0 <? p) = true ->
  B64.calculate_extra_fuel_cost_10k ms mu p =
    Ok (10000 / mu * B64.LITRES_PER_GALLON * p - 10000 / ms * B64.LITRES_PER_GALLON * p) /\
  B64.LITRES_PER_GALLON = 4.54609.
Proof.
  intros Hs Hu Hp. split; [| reflexivity].
  apply fuel_cost_past_guard_binary64; now apply float_pos_not_le0.
Qed.

Lemma extra_fuel_cost_binary64_witness :
  B64.calculate_extra_fuel_cost_10k 54.3 51.0 1.51 =
    Ok (10000 / 51.0 * B64.LITRES_PER_GALLON * 1.51 - 10000 / 54.3 * B64.LITRES_PER_GALLON * 1.51) /\
  B64.LITRES_PER_GALLON = 4.54609.
Proof. apply (extra_fuel_cost_binary64 54.3 51.0 1.51); reflexivity. Defined.

(** C1 as stated fails in binary64: for the Small Van at 1.51 the code
    returns 81.801056115263918 while the factored expression evaluates to
    81.801056115263876, and at the price 2.1e305 the code returns infinity
    while the factored expression is finite. *)
Lemma extra_fuel_cost_is_not_the_factored_formula :
  (0 <? 54.3) = true /\ (0 <? 51.0) = true /\ (0 <? 1.51) = true /\
  B64.calculate_extra_fuel_cost_10k 54.3 51.0 1.51 = Ok 81.801056115263918 /\
  B64.factored_fuel_formula 54.3 51.0 1.51 = 81.801056115263876 /\
  B64.calculate_extra_fuel_cost_10k 54.3 51.0 1.51 <>
    Ok (B64.factored_fuel_formula 54.3 51.0 1.51) /\
  B64.calculate_extra_fuel_cost_10k 54.3 51.0 2.1e305 = Ok infinity /\
  B64.factored_fuel_formula 54.3 51.0 2.1e305 = 1.137630581735458e+307.
Proof.
  repeat (split; [reflexivity |]).
  split; [| split; reflexivity].
  intros H.
  apply (f_equal (fun r => match r with Ok x => x =? 81.801056115263876 | Raise _ => true end))
    in H.
  vm_compute in H. discriminate H.
Qed.

(** ** The sign of the extra fuel cost *)

(** The fuel helper on [0 < mpg_under <= mpg_std], a positive price and a
    cost at [mpg_std] that does not overflow: what it returns is +0, positive
    or +infinity. *)
Lemma fuel_cost_nn_binary64 (ms mu p : float) :
  (0 <? mu) = true -> (mu <=? ms) = true -> (0 <? p) = true ->
  (10000 / ms * B64.LITRES_PER_GALLON * p <? infinity) = true ->
  exists cost,
    B64.calculate_extra_fuel_cost_10k ms mu p = Ok cost /\ nn (Prim2SF cost) = true.
Proof.
  intros Hmu Hle Hp Hfin.
  exists (10000 / mu * B64.LITRES_PER_GALLON * p - 10000 / ms * B64.LITRES_PER_GALLON * p).
  split.
  - apply fuel_cost_past_guard_binary64; apply float_pos_not_le0;
      [exact (float_pos_le mu ms Hmu Hle) | exact Hmu | exact Hp].
  - apply fuel_difference_nn; try assumption; reflexivity.
Qed.

Lemma fuel_cost_sign_binary64 (ms mu p : float) :
  (0 <? mu) = true -> (mu <=? ms) = true -> (0 <? p) = true ->
  (10000 / ms * B64.LITRES_PER_GALLON * p <? infinity) = true ->
  exists cost,
    B64.calculate_extra_fuel_cost_10k ms mu p = Ok cost /\ (0 <=? cost) = true.
Proof.
  intros Hmu Hle Hp Hfin.
  destruct (fuel_cost_nn_binary64 ms mu p Hmu Hle Hp Hfin) as (cost & Hok & Hnn).
  exists cost. split; [exact Hok | now apply float_nn_le0].
Qed.

(** C7, as the code has it: with 0 < mpg_under <= mpg_std, a positive price,
    and a cost at the standard economy, 10000 / mpg_std * LITRES_PER_GALLON *
    price, that does not overflow, the fuel helper returns, without raising,
    a value >= 0 (+infinity when only the cost at the under-inflated economy
    overflows).  Every operation is the rounded binary64 one. *)
Theorem extra_fuel_cost_nonneg_binary64 (ms mu p : float) :
  (0 <? mu) = true -> (mu <=? ms) = true -> (0 <? p) = true ->
  (10000 / ms * B64.LITRES_PER_GALLON * p <? infinity) = true ->
  exists cost,
    B64.calculate_extra_fuel_cost_10k ms mu p = Ok cost /\ (0 <=? cost) = true.
Proof. exact (fuel_cost_sign_binary64 ms mu p). Qed.

Lemma extra_fuel_cost_nonneg_binary64_witness :
  exists cost,
    B64.calculate_extra_fuel_cost_10k 54.3 51.0 1.51 = Ok cost /\ (0 <=? cost) = true.
Proof. apply (extra_fuel_cost_nonneg_binary64 54.3 51.0 1.51); reflexivity. Defined.

(** C7 as stated fails in binary64: the Small Van has 0 < 51.0 <= 54.3, the
    price 2^1023 is positive, both costs overflow to +infinity, and the
    helper returns their difference, a NaN, for which [0 <= nan] is false. *)
Lemma extra_fuel_cost_nan_at_huge_price :
  B64.DEFAULT_PARAMS !! "Small Van"%string = Some (B64.mkParams 54.3 51.0 240.0 283.2) /\
  (0 <? 51.0) = true /\ (51.0 <=? 54.3) = true /\ (0 <? 0x1p1023) = true /\
  10000 / 54.3 * B64.LITRES_PER_GALLON * 0x1p1023 = infinity /\
  10000 / 51.0 * B64.LITRES_PER_GALLON * 0x1p1023 = infinity /\
  B64.calculate_extra_fuel_cost_10k 54.3 51.0 0x1p1023 = Ok nan /\
  (0 <=? nan) = false.
Proof. repeat (split; [reflexivity |]). reflexivity. Qed.

(** ** The catalog in binary64 *)

Lemma catalog_entries_binary64 (name : string) (prm : B64.Params) :
  B64.DEFAULT_PARAMS !! name = Some prm ->
  (name = "Small Van"%string /\ prm = B64.mkParams 54.3 51.0 240.0 283.2) \/
  (name = "Medium Van"%string /\ prm = B64.mkParams 44.8 42.1 320.0 377.6) \/
  (name = "Large Van"%string /\ prm = B64.mkParams 40.9 38.4 380.0 448.4) \/
  (name = "Long Wheelbase Van"%string /\ prm = B64.mkParams 32.5 30.6 380.0 448.4).
Proof.
  unfold B64.DEFAULT_PARAMS. rewrite !lookup_insert, lookup_empty.
  intros Hentry.
  repeat case_decide; try discriminate Hentry;
    injection Hentry as <-; subst name; tauto.
Qed.

(** X15: for each of the four classes of the catalog and every positive
    diesel price at which the cost at the standard economy does not
    overflow, the fuel helper returns, without raising, a value >= 0: in
    binary64 too, the catalog's under-inflated economy is positive and not
    above the standard one. *)
Theorem catalog_fuel_cost_nonneg_binary64 (name : string) (prm : B64.Params) (p : float) :
  B64.DEFAULT_PARAMS !! name = Some prm ->
  (0 <? p) = true ->
  (10000 / B64.mpg_std prm * B64.LITRES_PER_GALLON * p <? infinity) = true ->
  (0 <? B64.mpg_under prm) = true /\
  (B64.mpg_under prm <=? B64.mpg_std prm) = true /\
  exists cost,
    B64.calculate_extra_fuel_cost_10k (B64.mpg_std prm) (B64.mpg_under prm) p = Ok cost /\
    (0 <=? cost) = true.
Proof.
  intros Hreg Hp Hfin.
  assert (Hinv : (0 <? B64.mpg_under prm) = true /\
                 (B64.mpg_under prm <=? B64.mpg_std prm) = true).
  { destruct (catalog_entries_binary64 name prm Hreg)
      as [[_ ->] | [[_ ->] | [[_ ->] | [_ ->]]]]; split; reflexivity. }
  destruct Hinv as [H0 Hle]. split; [exact H0 |]. split; [exact Hle |].
  exact (fuel_cost_sign_binary64 _ _ p H0 Hle Hp Hfin).
Qed.

Lemma catalog_fuel_cost_nonneg_binary64_witness :
  (0 <? 42.1) = true /\ (42.1 <=? 44.8) = true /\
  exists cost, B64.calculate_extra_fuel_cost_10k 44.8 42.1 1.51 = Ok cost /\ (0 <=? cost) = true.
Proof.
  apply (catalog_fuel_cost_nonneg_binary64 "Medium Van" (B64.mkParams 44.8 42.1 320.0 377.6) 1.51);
    reflexivity.
Defined.

(** ** One van class in binary64 *)

Lemma getitem_registered_binary64 (name : string) (prm : B64.Params) :
  B64.DEFAULT_PARAMS !! name = Some prm -> getitem B64.DEFAULT_PARAMS name = Ok prm.
Proof. intros H. unfold getitem. now rewrite H. Qed.

Lemma process_van_type_idle_binary64 name prm price form summary :
  B64.DEFAULT_PARAMS !! name = Some prm -> active form name = false ->
  B64.process_van_type name price form summary = Ok (0, <[name := 0]> summary).
Proof.
  intros Hreg Hact. unfold B64.process_van_type.
  rewrite (getitem_registered_binary64 _ _ Hreg). cbn [mbind result_bind Py.bind].
  unfold active in Hact. rewrite Hact. reflexivity.
Qed.

Lemma process_van_type_active_binary64 name prm price form summary fuel tyre m c :
  B64.DEFAULT_PARAMS !! name = Some prm -> active form name = true ->
  B64.calculate_extra_fuel_cost_10k (B64.mpg_std prm) (B64.mpg_under prm) price = Ok fuel ->
  B64.calculate_extra_tyre_cost_10k (B64.tyre_cost_std prm) (B64.tyre_cost_under prm)
    B64.DEFAULT_TYRE_LIFESPAN_MILES = Ok tyre ->
  B64.int_truediv (miles (form name)) 10000 = Ok m ->
  B64.float_of_int (count (form name)) = Ok c ->
  B64.process_van_type name price form summary =
    Ok (m * (fuel + tyre) * c, <[name := fuel + tyre]> summary).
Proof.
  intros Hreg Hact Hfuel Htyre Hm Hc. unfold B64.process_van_type.
  rewrite (getitem_registered_binary64 _ _ Hreg). cbn [mbind result_bind Py.bind].
  unfold active in Hact. rewrite Hact, Hfuel. cbn [mbind result_bind Py.bind].
  rewrite Htyre. cbn [mbind result_bind Py.bind].
  rewrite Hm. cbn [mbind result_bind Py.bind].
  rewrite Hc. reflexivity.
Qed.

(** A rounded value that is not negative and not infinite is a Python
    float, and no [OverflowError] is raised. *)
Lemma of_spec_float_finite (x : spec_float) :
  valid_binary x = true -> nn x = true -> SFltb x (S754_infinity false) = true ->
  B64.of_spec_float x = Ok (SF2Prim x) /\ Prim2SF (SF2Prim x) = x.
Proof.
  intros V N F. split; [| apply FloatAxioms.Prim2SF_SF2Prim; exact V].
  destruct x as [[] | [] | | [] m e]; cbn in N, F; try discriminate N; try discriminate F;
    reflexivity.
Qed.

(** [miles / 10000] on a positive int below 2^1023: a float, at least
    1e-4. *)
Lemma int_truediv_miles (miles : Z) :
  (0 < miles < 2 ^ 1023)%Z ->
  exists m, B64.int_truediv miles 10000 = Ok m /\ (1e-4 <=? m) = true.
Proof.
  intros [H0 H1]. destruct miles as [| a | a]; try lia.
  change (B64.int_truediv (Zpos a) 10000)
    with (B64.of_spec_float (SF64div (S754_finite false a 0) (S754_finite false 10000 0))).
  pose proof (int_quotient_rounds a 10000) as Hr.
  assert (Hbound : (inject_Z (Zpos a) / inject_Z 10000 <= p2 1023)%Q).
  { pose proof (inject_Z_below_p2 (Zpos a) 1023 ltac:(lia) H1) as Ha.
    pose proof (p2_pos 1023) as Hp.
    apply Qle_shift_div_r; [reflexivity |].
    change (inject_Z 10000) with 10000%Q. lra. }
  destruct (of_spec_float_finite _ (rounds_to_valid _ _ Hr) (rounds_to_nn _ _ Hr)
              (rounds_to_finite _ _ Hr Hbound)) as [Hok Hback].
  eexists. split; [exact Hok |].
  rewrite FloatAxioms.leb_spec, Hback.
  change (Prim2SF 1e-4)
    with (SF64div (S754_finite false 1 0) (S754_finite false 10000 0)).
  apply (rounds_to_mono _ _ _ _ (int_quotient_rounds 1 10000) Hr).
  apply Qmult_le_compat_r; [rewrite <- Zle_Qle; lia |].
  apply Qlt_le_weak, Qinv_lt_0_compat. reflexivity.
Qed.

(** [float(count)] on a positive int below 2^1023: a float, at least 1. *)
Lemma float_of_int_count (count : Z) :
  (0 < count < 2 ^ 1023)%Z ->
  exists c, B64.float_of_int count = Ok c /\ (1 <=? c) = true.
Proof.
  intros [H0 H1]. destruct count as [| a | a]; try lia.
  unfold B64.float_of_int.
  pose proof (int_rounds a) as Hr.
  pose proof (inject_Z_below_p2 (Zpos a) 1023 ltac:(lia) H1) as Hbound.
  destruct (of_spec_float_finite _ (rounds_to_valid _ _ Hr) (rounds_to_nn _ _ Hr)
              (rounds_to_finite _ _ Hr Hbound)) as [Hok Hback].
  eexists. split; [exact Hok |].
  rewrite FloatAxioms.leb_spec, Hback.
  change (Prim2SF 1) with (S754_finite false (2 ^ 52) (-52)).
  apply (rounds_to_ge (2 ^ 52) (-52) (inject_Z (Zpos a))); [reflexivity | | exact Hr].
  assert (Hv : (valF (2 ^ 52) (-52) == 1)%Q) by reflexivity.
  rewrite Hv. change 1%Q with (inject_Z 1). rewrite <- Zle_Qle. lia.
Qed.

(** The tyre part of each catalog class at the program's lifespan: half the
    cost differential, at least 21. *)
Lemma catalog_tyre_cost_binary64 (name : string) (prm : B64.Params) :
  B64.DEFAULT_PARAMS !! name = Some prm ->
  exists tyre,
    B64.calculate_extra_tyre_cost_10k (B64.tyre_cost_std prm) (B64.tyre_cost_under prm)
      B64.DEFAULT_TYRE_LIFESPAN_MILES = Ok tyre /\
    (21 <=? tyre) = true.
Proof.
  intros Hreg.
  destruct (catalog_entries_binary64 name prm Hreg)
    as [[_ ->] | [[_ ->] | [[_ ->] | [_ ->]]]];
    eexists; (split; [vm_compute; reflexivity | reflexivity]).
Qed.

(** At a price of at most 1e300 no cost of a catalog class overflows. *)
Lemma catalog_cost_finite_binary64 (name : string) (prm : B64.Params) (p : float) :
  B64.DEFAULT_PARAMS !! name = Some prm ->
  (0 <? p) = true -> (p <=? 1e300) = true ->
  (0 <? B64.mpg_under prm) = true /\
  (B64.mpg_under prm <=? B64.mpg_std prm) = true /\
  (10000 / B64.mpg_std prm * B64.LITRES_PER_GALLON * p <? infinity) = true.
Proof.
  intros Hreg Hp Hle.
  destruct (catalog_entries_binary64 name prm Hreg)
    as [[_ ->] | [[_ ->] | [[_ ->] | [_ ->]]]];
    (split; [reflexivity |]); (split; [reflexivity |]);
    apply (float_mul_finite _ p 1e300); try assumption; reflexivity.
Qed.

(** An active catalog class at a positive price of at most 1e300, with ints
    below 2^1023 in the form: the step returns, records a unit saving of at
    least 21, and the annual saving is positive. *)
Lemma class_saving_sign_binary64 name prm price form summary :
  B64.DEFAULT_PARAMS !! name = Some prm ->
  active form name = true ->
  (count (form name) < 2 ^ 1023)%Z -> (miles (form name) < 2 ^ 1023)%Z ->
  (0 <? price) = true -> (price <=? 1e300) = true ->
  exists unit annual,
    B64.process_van_type name price form summary =
      Ok (annual, <[name := unit]> summary) /\
    (21 <=? unit) = true /\ (0 <? annual) = true.
Proof.
  intros Hreg Hact Hc Hm Hp Hple.
  pose proof (proj1 (active_iff form name) Hact) as [Hc0 Hm0].
  destruct (catalog_cost_finite_binary64 name prm price Hreg Hp Hple) as (Hu & Hus & Hfin).
  destruct (fuel_cost_nn_binary64 _ _ price Hu Hus Hp Hfin) as (fuel & Hfuel & Nfuel).
  destruct (catalog_tyre_cost_binary64 name prm Hreg) as (tyre & Htyre & Htyre21).
  destruct (int_truediv_miles (miles (form name)) (conj Hm0 Hm)) as (m & Hmok & Hmle).
  destruct (float_of_int_count (count (form name)) (conj Hc0 Hc)) as (c & Hcok & Hcle).
  exists (fuel + tyre), (m * (fuel + tyre) * c).
  split; [exact (process_van_type_active_binary64 _ _ _ _ _ _ _ _ _
                   Hreg Hact Hfuel Htyre Hmok Hcok) |].
  assert (Hunit : (21 <=? fuel + tyre) = true).
  { apply float_add_ge_r; try assumption; reflexivity. }
  split; [exact Hunit |].
  apply (float_mul3_ge 1e-4 21 1); try assumption; reflexivity.
Qed.

(** X16: for an active catalog class (count > 0 and miles > 0, both ints below
    2^1023) and a diesel price 0 < price <= 1e300, [process_van_type] returns
    without raising, records under the class name a unit saving of at least
    21, and returns a strictly positive annual saving (possibly +infinity);
    all in binary64, rounding included. *)
Theorem class_annual_saving_positive_binary64 name prm price form summary :
  B64.DEFAULT_PARAMS !! name = Some prm ->
  (0 < count (form name) < 2 ^ 1023)%Z -> (0 < miles (form name) < 2 ^ 1023)%Z ->
  (0 <? price) = true -> (price <=? 1e300) = true ->
  exists unit annual,
    B64.process_van_type name price form summary =
      Ok (annual, <[name := unit]> summary) /\
    (21 <=? unit) = true /\ (0 <? annual) = true.
Proof.
  intros Hreg [Hc0 Hc] [Hm0 Hm] Hp Hple.
  apply (class_saving_sign_binary64 name prm); try assumption.
  apply active_iff. split; assumption.
Qed.

Lemma class_annual_saving_positive_binary64_witness :
  exists unit annual,
    B64.process_van_type "Small Van" 1.51 small_van_only ∅ =
      Ok (annual, <["Small Van"%string := unit]> ∅) /\
    (21 <=? unit) = true /\ (0 <? annual) = true.
Proof.
  apply (class_annual_saving_positive_binary64 "Small Van"
           (B64.mkParams 54.3 51.0 240.0 283.2) 1.51 small_van_only ∅);
    [reflexivity | split; reflexivity | split; reflexivity | reflexivity | reflexivity].
Defined.

(** ** The accumulation in binary64 *)

(** Over registered classes, with ints below 2^1023 in the form and a price
    0 < price <= 1e300, the accumulation returns; the total stays
    non-negative, and it is positive exactly when it started positive or a
    class of the list is active. *)
Lemma process_all_sign_binary64 (names : list string) (price : float) (form : Form) :
  (0 <? price) = true -> (price <=? 1e300) = true ->
  (forall n, n ∈ names ->
     is_Some (B64.DEFAULT_PARAMS !! n) /\
     (count (form n) < 2 ^ 1023)%Z /\ (miles (form n) < 2 ^ 1023)%Z) ->
  forall total0 summary,
    nn (Prim2SF total0) = true ->
    exists total summary',
      B64.process_all names price form total0 summary = Ok (total, summary') /\
      nn (Prim2SF total) = true /\
      (pos_sf (Prim2SF total) = true <->
       pos_sf (Prim2SF total0) = true \/ exists n, n ∈ names /\ active form n = true).
Proof.
  intros Hp Hple. induction names as [| name rest IH]; intros Hall total0 summary N0.
  - exists total0, summary. split; [reflexivity |]. split; [exact N0 |].
    split; [tauto |]. intros [H | (n & Hn & _)]; [exact H |].
    apply elem_of_nil in Hn. destruct Hn.
  - destruct (Hall name ltac:(apply elem_of_cons; now left)) as ([prm Hreg] & Hc & Hm).
    assert (Hall' : forall n, n ∈ rest ->
              is_Some (B64.DEFAULT_PARAMS !! n) /\
              (count (form n) < 2 ^ 1023)%Z /\ (miles (form n) < 2 ^ 1023)%Z).
    { intros n Hn. apply Hall. apply elem_of_cons. now right. }
    destruct (active form name) eqn:Hact.
    + destruct (class_saving_sign_binary64 name prm price form summary
                  Hreg Hact Hc Hm Hp Hple) as (unit & annual & Hstep & _ & Hpos).
      apply float_pos_lt0 in Hpos.
      destruct (float_add_nn total0 annual N0 (pos_sf_nn _ Hpos)) as [Nsum Psum].
      destruct (IH Hall' (total0 + annual)%float (<[name := unit]> summary) Nsum)
        as (total & summary' & Hrun & Ntot & Ptot).
      exists total, summary'. split.
      { cbn [B64.process_all]. rewrite Hstep. cbn [mbind result_bind Py.bind]. exact Hrun. }
      split; [exact Ntot |]. split.
      * intros _. right. exists name. split; [apply elem_of_cons; now left | exact Hact].
      * intros _. apply Ptot. left. apply Psum. now right.
    + pose proof (process_van_type_idle_binary64 name prm price form summary Hreg Hact)
        as Hstep.
      destruct (float_add_nn total0 0 N0 eq_refl) as [Nsum Psum].
      destruct (IH Hall' (total0 + 0)%float (<[name := 0]> summary) Nsum)
        as (total & summary' & Hrun & Ntot & Ptot).
      exists total, summary'. split.
      { cbn [B64.process_all]. rewrite Hstep. cbn [mbind result_bind Py.bind]. exact Hrun. }
      split; [exact Ntot |]. rewrite Ptot, Psum. split.
      * intros [[H | H] | (n & Hn & Hn')].
        -- now left.
        -- cbn in H. discriminate H.
        -- right. exists n. split; [apply elem_of_cons; now right | exact Hn'].
      * intros [H | (n & Hn & Hn')].
        -- left. now left.
        -- apply elem_of_cons in Hn as [-> | Hn]; [congruence |].
           right. exists n. split; assumption.
Qed.

(** X17: with a diesel price 0 < price <= 1e300 and ints below 2^1023 in the
    form, the four calls of lines 113-116 all return, in binary64, with a
    total that is never negative and never NaN, and that is strictly positive
    exactly when at least one class has a positive count and a positive
    mileage: the test [total_fleet_savings > 0] of the results section
    succeeds exactly then. *)
Theorem total_fleet_savings_sign_binary64 (price : float) (form : Form) :
  (0 <? price) = true -> (price <=? 1e300) = true ->
  (forall n, n ∈ VAN_TYPES ->
     (count (form n) < 2 ^ 1023)%Z /\ (miles (form n) < 2 ^ 1023)%Z) ->
  exists total summary,
    B64.total_fleet_savings price form = Ok (total, summary) /\
    (0 <=? total) = true /\
    ((0 <? total) = true <-> exists n, n ∈ VAN_TYPES /\ active form n = true).
Proof.
  intros Hp Hple Hform.
  destruct (process_all_sign_binary64 VAN_TYPES price form Hp Hple) with (total0 := 0%float)
    (summary := (∅ : gmap string float)) as (total & summary & Hrun & Ntot & Ptot).
  - intros n Hn. split; [| exact (Hform n Hn)].
    unfold VAN_TYPES in Hn. rewrite !elem_of_cons, elem_of_nil in Hn.
    destruct Hn as [-> | [-> | [-> | [-> | []]]]]; now eexists.
  - reflexivity.
  - exists total, summary. split; [exact Hrun |]. split; [now apply float_nn_le0 |].
    rewrite <- float_pos_lt0, Ptot. split.
    + intros [H | H]; [cbn in H; discriminate H | exact H].
    + intros H. now right.
Qed.

Lemma total_fleet_savings_sign_binary64_witness :
  exists total summary,
    B64.total_fleet_savings 1.51 (uniform_form 1 10000) = Ok (total, summary) /\
    (0 <=? total) = true /\
    ((0 <? total) = true <->
     exists n, n ∈ VAN_TYPES /\ active (uniform_form 1 10000) n = true).
Proof.
  apply (total_fleet_savings_sign_binary64 1.51 (uniform_form 1 10000));
    [reflexivity | reflexivity | intros n _; split; reflexivity].
Defined.

(** ** The tyre formula *)

(** C2, as the code has it: with a positive lifespan whose quotient by 10000
    is not rounded to zero, the tyre helper returns, without raising,
    (tyre_cost_under - tyre_cost_std) / (lifespan / 10000), each operation
    rounded to binary64; at the program's lifespan of 20000 this is the cost
    differential divided by 2, whatever the two costs. *)
Theorem extra_tyre_cost_binary64 (s u l : float) :
  (0 <? l) = true -> (l / 10000 =? 0) = false ->
  B64.calculate_extra_tyre_cost_10k s u l = Ok ((u - s) / (l / 10000)) /\
  B64.calculate_extra_tyre_cost_10k s u B64.DEFAULT_TYRE_LIFESPAN_MILES = Ok ((u - s) / 2).
Proof.
  intros Hl Hq. split.
  - unfold B64.calculate_extra_tyre_cost_10k.
    rewrite (float_pos_not_le0 _ Hl).
    rewrite (truediv_not_zero l 10000) by reflexivity.
    cbn [mbind result_bind Py.bind]. now apply truediv_not_zero.
  - reflexivity.
Qed.

Lemma extra_tyre_cost_binary64_witness :
  B64.calculate_extra_tyre_cost_10k 320.0 377.6 45000 = Ok ((377.6 - 320.0) / (45000 / 10000)) /\
  B64.calculate_extra_tyre_cost_10k 320.0 377.6 B64.DEFAULT_TYRE_LIFESPAN_MILES =
    Ok ((377.6 - 320.0) / 2).
Proof. apply (extra_tyre_cost_binary64 320.0 377.6 45000); reflexivity. Defined.

(** C2 as stated fails in binary64.  The two closed forms differ: at a
    lifespan of 45000 the code returns 12.800000000000004 and the form
    (under - std) * 10000 / lifespan evaluates to 12.800000000000006.  And
    not every positive lifespan gives a value: at 5e-324 the quotient by 10000
    is rounded to zero and the helper raises. *)
Lemma extra_tyre_cost_is_not_the_scaled_formula :
  (0 <? 45000) = true /\
  B64.calculate_extra_tyre_cost_10k 320.0 377.6 45000 = Ok 12.800000000000004 /\
  B64.scaled_tyre_formula 320.0 377.6 45000 = 12.800000000000006 /\
  B64.calculate_extra_tyre_cost_10k 320.0 377.6 45000 <>
    Ok (B64.scaled_tyre_formula 320.0 377.6 45000) /\
  (0 <? 5e-324) = true /\
  B64.calculate_extra_tyre_cost_10k 320.0 377.6 5e-324 = Raise ZeroDivisionError.
Proof.
  repeat (split; [reflexivity |]).
  split; [| split; reflexivity].
  intros H.
  apply (f_equal (fun r => match r with Ok x => x =? 12.800000000000006 | Raise _ => true end))
    in H.
  vm_compute in H. discriminate H.
Qed.

(** ** Errors *)



(** ** The worked scenario: one Small Van, 10000 miles, diesel at 1.51 *)

Lemma small_van_only_run_binary64 :
  exists summary,
    B64.total_fleet_savings 1.51 small_van_only = Ok (103.40105611526391, summary) /\
    summary !! "Small Van"%string = Some 103.40105611526391.
Proof.
  exists (<["Long Wheelbase Van"%string := 0]>
            (<["Medium Van"%string := 0]>
               (<["Large Van"%string := 0]>
                  (<["Small Van"%string := 103.40105611526391]> ∅)))).
  split; vm_compute; reflexivity.
Qed.

(** C9, with the amounts the code yields: in the Small Van scenario (one van,
    10000 miles, diesel at 1.51, the other classes idle) the tyre delta is
    21.599999999999994, which is 21.60 to the penny; the fuel delta is
    81.801056115263918, which is 81.80 to the penny; and the unit saving, the
    annual saving of the class and the total are each 103.40105611526391,
    which is 103.40 to the penny. *)
Theorem small_van_scenario_binary64 :
  exists summary,
    B64.DEFAULT_PARAMS !! "Small Van"%string = Some (B64.mkParams 54.3 51.0 240.0 283.2) /\
    B64.calculate_extra_tyre_cost_10k 240.0 283.2 B64.DEFAULT_TYRE_LIFESPAN_MILES =
      Ok 21.599999999999994 /\
    to_the_penny (B64.to_Q 21.599999999999994) 21.60%Q /\
    B64.calculate_extra_fuel_cost_10k 54.3 51.0 1.51 = Ok 81.801056115263918 /\
    to_the_penny (B64.to_Q 81.801056115263918) 81.80%Q /\
    81.801056115263918 + 21.599999999999994 = 103.40105611526391 /\
    B64.total_fleet_savings 1.51 small_van_only = Ok (103.40105611526391, summary) /\
    summary !! "Small Van"%string = Some 103.40105611526391 /\
    returned (B64.process_van_type "Small Van" 1.51 small_van_only ∅) =
      Ok 103.40105611526391 /\
    to_the_penny (B64.to_Q 103.40105611526391) 103.40%Q.
Proof.
  destruct small_van_only_run_binary64 as (summary & Hrun & Hrec).
  exists summary.
  split; [reflexivity |]. split; [reflexivity |].
  split; [vm_compute; discriminate |].
  split; [reflexivity |].
  split; [vm_compute; discriminate |].
  split; [reflexivity |].
  split; [exact Hrun |]. split; [exact Hrec |].
  split; [vm_compute; reflexivity |].
  vm_compute. discriminate.
Qed.

(** C9 as stated fails: the tyre delta the code returns is not exactly
    21.60 (it is the binary64 value below it), the fuel delta is not 81.76 to
    the penny, and the unit saving, the annual saving and the total are not
    103.36 to the penny. *)
Lemma small_van_scenario_not_as_stated :
  exists summary,
    B64.calculate_extra_tyre_cost_10k 240.0 283.2 B64.DEFAULT_TYRE_LIFESPAN_MILES =
      Ok 21.599999999999994 /\
    (21.599999999999994 =? 21.60) = false /\
    ~ (B64.to_Q 21.599999999999994 == 21.60)%Q /\
    B64.calculate_extra_fuel_cost_10k 54.3 51.0 1.51 = Ok 81.801056115263918 /\
    ~ to_the_penny (B64.to_Q 81.801056115263918) 81.76%Q /\
    B64.total_fleet_savings 1.51 small_van_only = Ok (103.40105611526391, summary) /\
    summary !! "Small Van"%string = Some 103.40105611526391 /\
    returned (B64.process_van_type "Small Van" 1.51 small_van_only ∅) =
      Ok 103.40105611526391 /\
    ~ to_the_penny (B64.to_Q 103.40105611526391) 103.36%Q.
Proof.
  destruct small_van_only_run_binary64 as (summary & Hrun & Hrec).
  exists summary.
  split; [reflexivity |]. split; [reflexivity |].
  split; [vm_compute; discriminate |].
  split; [reflexivity |].
  split; [intros H; vm_compute in H; exact (H eq_refl) |].
  split; [exact Hrun |]. split; [exact Hrec |].
  split; [vm_compute; reflexivity |].
  intros H. vm_compute in H. exact (H eq_refl).
Qed.

(** ** What the fuel helper never does *)

(** X14: on no binary64 arguments, infinities, NaN and signed zeros
    included, does the fuel helper raise: an argument that gets past the guard
    [<= 0] is not a zero, so neither division of lines 33-34 divides by
    zero. *)
Theorem fuel_helper_never_raises (ms mu p : float) :
  exists v, B64.calculate_extra_fuel_cost_10k ms mu p = Ok v.
Proof.
  destruct (ms <=? 0) eqn:Hs; [| destruct (mu <=? 0) eqn:Hu; [| destruct (p <=? 0) eqn:Hp]].
  - exists 0. unfold B64.calculate_extra_fuel_cost_10k. now rewrite Hs.
  - exists 0. unfold B64.calculate_extra_fuel_cost_10k. now rewrite Hs, Hu.
  - exists 0. unfold B64.calculate_extra_fuel_cost_10k. now rewrite Hs, Hu, Hp.
  - eexists. now apply fuel_cost_past_guard_binary64.
Qed.

End Binary64.
